(** * Prompt attachments collection

    A shallow embedding of
    [src/vs/workbench/contrib/chat/browser/chatAttachmentModel/chatPromptAttachmentsCollection.ts]
    and the properties its specification states about it.

    The file has two layers.  The pure encoders ([createPromptVariableId],
    [toChatVariable], [isPromptFileChatVariable]) are plain functions on
    strings and records.  The class [ChatPromptAttachmentsCollection] is
    stateful: its methods are state transformers over a record holding the
    [DisposableMap] (an association list, because a JavaScript [Map] iterates
    in insertion order), the heap of attachment models it points into, and a
    log of the steps performed so far. *)

From Stdlib Require Import Ascii.
From stdpp Require Import gmap strings list.

Local Open Scope string_scope.
Local Open Scope list_scope.

(** ** Data *)

(** [URI] of [base/common/uri.ts]: five string components.  Only [path] is
    read directly by the collection (it is the key of the map). *)
Module URI.
Record t : Type := Build
  { scheme : string;
    authority : string;
    path : string;
    query : string;
    fragment : string }.
End URI.

(** Two operations on URIs that the encoders call are defined elsewhere in
    the repository: [URI.toString] (what the template literal [`${uri}`]
    evaluates) and [basename] of [base/common/resources.ts].  They are taken
    as parameters; no property below depends on what strings they return. *)
Class UriOps : Type :=
  { uriToString : URI.t -> string;
    basename : URI.t -> string }.

(** [Pick<IPromptFileReference, 'uri' | 'isPromptFile'>]. *)
Module Ref.
Record t : Type := Build
  { uri : URI.t;
    isPromptFile : bool }.
End Ref.

(** [IChatRequestVariableEntry], restricted to the fields this file writes
    or reads.  [kind] is the discriminating tag of the union;
    [modelDescription] is [undefined] when [None]. *)
Module Entry.
Record t : Type := Build
  { id : string;
    name : string;
    value : URI.t;
    kind : string;
    modelDescription : option string }.
End Entry.

(** ** The pure encoders *)

Section Encoders.
Context {uriOps : UriOps}.

(** Lines 25-39.  The mutable [prefix] is rebound by the [if]. *)
Definition createPromptVariableId (uri : URI.t) (isRoot : bool) : string :=
  let prefix := "vscode.prompt.instructions" in
  let prefix := if isRoot then prefix +:+ ".root" else prefix in
  (prefix +:+ "__") +:+ uriToString uri.

(** Lines 53-82. *)
Definition toChatVariable (reference : Ref.t) (isRoot : bool) : Entry.t :=
  let uri := Ref.uri reference in
  let isPromptFile := Ref.isPromptFile reference in
  let id := uriToString uri in
  let id := if isPromptFile then createPromptVariableId uri isRoot else id in
  let name :=
    if isPromptFile
    then "prompt:" +:+ basename uri
    else "file:" +:+ basename uri in
  let modelDescription :=
    if isPromptFile then Some "Prompt instructions file" else None in
  {| Entry.id := id;
     Entry.name := name;
     Entry.value := uri;
     Entry.kind := "file";
     Entry.modelDescription := modelDescription |}.

End Encoders.

(** Modelled from the spec: [isChatRequestFileEntry] is defined in
    [common/chatModel.ts], not in the collection's file; the specification
    calls its positive case "a file-kind entry", so it is the test of the
    [kind] tag against ['file']. *)
Definition isChatRequestFileEntry (variable : Entry.t) : bool :=
  String.eqb (Entry.kind variable) "file".

(** Lines 84-86.  [startsWith] is [String.prefix] with the arguments
    swapped; [&&] is short-circuit, which is [andb] on pure operands. *)
Definition isPromptFileChatVariable (variable : Entry.t) : bool :=
  isChatRequestFileEntry variable && String.prefix "prompt:" (Entry.name variable).

(** ** The objects the collection owns *)

(** State of a JavaScript promise. *)
Inductive PromiseState : Type := Pending | Fulfilled | Rejected.

(** The two closures [add] registers on an attachment model, as data:
    [UpdateFire] is [this._onUpdate.fire] (bound to the emitter at line 198),
    [DisposeCallback uri instruction] is the arrow function of lines 215-221
    together with the two variables it captures. *)
Inductive Listener : Type :=
| UpdateFire
| DisposeCallback (uri : URI.t) (instruction : nat).

(** The [reference] of an attachment: the root of its tree, with the
    children resolved so far. *)
Module Parser.
Record t : Type := Build
  { uri : URI.t;
    isPromptFile : bool;
    allValidReferences : list Ref.t }.
End Parser.

(** Modelled from the spec: [ChatPromptAttachmentModel] is declared in
    [chatPromptAttachmentModel.ts], not in the collection's file.  The
    specification gives its contract (section 3, AttachmentHandle, and
    section 6): a reference tree, an update event, a disposal signal, a
    [resolve] entry point and a settle promise.  [resolveCalls] counts the
    calls of [resolve]; [disposed] is set by [dispose]. *)
Module Model.
Record t : Type := Build
  { uri : URI.t;
    reference : Parser.t;
    onUpdate : list Listener;
    onDispose : list Listener;
    resolveCalls : nat;
    disposed : bool;
    allSettled : PromiseState }.
End Model.

(** What an observer of the collection can see happen, in order.  Objects are
    named by their address in the heap. *)
Inductive Step : Type :=
| Constructed (instruction : nat) (uri : URI.t)
| UpdateWired (instruction : nat)
| DisposeWired (instruction : nat)
| Stored (key : string) (instruction : nat)
| ResolveCalled (instruction : nat)
| AddFired (instruction : nat)
| UpdateFired
| RemoveFired (instruction : nat)
| DeleteAndLeak (key : string)
| DeleteAndDispose (key : string)
| DisposeCalled (instruction : nat).

(** The collection: [attachments] is the [DisposableMap] (keys in insertion
    order, values are addresses), [heap] holds the attachment models, [log]
    is the history of steps, oldest first. *)
Record Collection : Type := BuildCollection
  { attachments : list (string * nat);
    heap : gmap nat Model.t;
    log : list Step }.

(** A new collection (the constructor, lines 192-199). *)
Definition create : Collection := BuildCollection [] ∅ [].

(** ** State monad of the methods

    A method is a function from the collection before the call to its
    result and the collection after it. *)

Definition M (A : Type) : Type := Collection -> A * Collection.

#[export] Instance M_ret : MRet M := fun A (a : A) this => (a, this).

#[export] Instance M_bind : MBind M :=
  fun A B (k : A -> M B) (m : M A) this => let (a, this') := m this in k a this'.

Definition exec {A} (m : M A) (this : Collection) : Collection := (m this).2.

Definition record (s : Step) : M unit :=
  fun this => (tt, BuildCollection (attachments this) (heap this) (log this ++ [s])).

Definition modify_store (f : list (string * nat) -> list (string * nat)) : M unit :=
  fun this => (tt, BuildCollection (f (attachments this)) (heap this) (log this)).

Definition modify_model (f : Model.t -> Model.t) (instruction : nat) : M unit :=
  fun this =>
    (tt, BuildCollection (attachments this) (alter f instruction (heap this)) (log this)).

Definition read_model (instruction : nat) : M (option Model.t) :=
  fun this => (heap this !! instruction, this).

(** ** [DisposableMap]

    Modelled from the spec: the class is declared in
    [base/common/lifecycle.ts].  Section 9 of the specification names its two
    removal primitives: "forget" (drop bookkeeping only) is [deleteAndLeak],
    "evict" (drop bookkeeping and dispose) is [deleteAndDispose].  The
    underlying store is a JavaScript [Map]: unique keys, insertion order. *)

Definition key_is (key : string) (e : string * nat) : bool := String.eqb e.1 key.

(** [Map.prototype.has], [get], [set] (an existing key keeps its place, a
    new one goes last) and [delete]. *)

Definition store_has (key : string) (store : list (string * nat)) : bool :=
  List.existsb (key_is key) store.

Definition store_get (key : string) (store : list (string * nat)) : option nat :=
  snd <$> List.find (key_is key) store.

Fixpoint store_set (key : string) (v : nat) (store : list (string * nat)) :
  list (string * nat) :=
  match store with
  | [] => [(key, v)]
  | e :: rest => if key_is key e then (key, v) :: rest else e :: store_set key v rest
  end.

Definition store_delete (key : string) (store : list (string * nat)) :
  list (string * nat) :=
  List.filter (fun e => negb (key_is key e)) store.

Definition has (key : string) : M bool :=
  fun this => (store_has key (attachments this), this).

Definition get (key : string) : M (option nat) :=
  fun this => (store_get key (attachments this), this).

(** Modelled from the spec: [DisposableMap.deleteAndLeak], the "forget"
    primitive: drop the key and hand back the value, which is left as it
    is. *)
Definition deleteAndLeak (key : string) : M (option nat) :=
  record (DeleteAndLeak key);;
  v ← get key;
  modify_store (store_delete key);;
  mret v.

(** ** Attachment models *)

(** The flag a newly constructed parser reports for its root is computed
    from the URI by the parser, which is defined elsewhere; it is a
    parameter. *)
Class ParserOps : Type :=
  { isPromptFileUri : URI.t -> bool }.

Section Methods.
Context {uriOps : UriOps} {parserOps : ParserOps}.

(** Modelled from the spec: the state of a [ChatPromptAttachmentModel] when
    its constructor returns: nothing resolved, nobody listening. *)
Definition new_model (uri : URI.t) : Model.t :=
  {| Model.uri := uri;
     Model.reference := Parser.Build uri (isPromptFileUri uri) [];
     Model.onUpdate := [];
     Model.onDispose := [];
     Model.resolveCalls := 0;
     Model.disposed := false;
     Model.allSettled := Pending |}.

(** Modelled from the spec: the instantiation service,
    [this.initService.createInstance(ChatPromptAttachmentModel, uri)], makes
    a new object, at an address no object has. *)
Definition createInstance (uri : URI.t) : M nat :=
  fun this =>
    let instruction := fresh (dom (heap this)) in
    (instruction,
     BuildCollection (attachments this)
       (<[instruction := new_model uri]> (heap this))
       (log this ++ [Constructed instruction uri])).

Definition add_onUpdate (callback : Listener) (m : Model.t) : Model.t :=
  Model.Build (Model.uri m) (Model.reference m) (Model.onUpdate m ++ [callback])
    (Model.onDispose m) (Model.resolveCalls m) (Model.disposed m) (Model.allSettled m).

Definition add_onDispose (callback : Listener) (m : Model.t) : Model.t :=
  Model.Build (Model.uri m) (Model.reference m) (Model.onUpdate m)
    (Model.onDispose m ++ [callback]) (Model.resolveCalls m) (Model.disposed m)
    (Model.allSettled m).

Definition count_resolve (m : Model.t) : Model.t :=
  Model.Build (Model.uri m) (Model.reference m) (Model.onUpdate m) (Model.onDispose m)
    (S (Model.resolveCalls m)) (Model.disposed m) (Model.allSettled m).

Definition mark_disposed (m : Model.t) : Model.t :=
  Model.Build (Model.uri m) (Model.reference m) [] [] (Model.resolveCalls m) true
    (Model.allSettled m).

(** Modelled from the spec: [model.onUpdate(callback)] subscribes the
    callback to the update event of the model and returns the model, which
    is what lets [add] chain the calls. *)
Definition onUpdate (callback : Listener) (instruction : nat) : M nat :=
  modify_model (add_onUpdate callback) instruction;;
  record (UpdateWired instruction);;
  mret instruction.

(** Modelled from the spec: [model.onDispose(callback)] subscribes the
    callback to the disposal signal of the model and returns the model. *)
Definition onDispose (callback : Listener) (instruction : nat) : M nat :=
  modify_model (add_onDispose callback) instruction;;
  record (DisposeWired instruction);;
  mret instruction.

(** Modelled from the spec: [model.resolve()] starts the asynchronous
    resolution; nothing of it is visible before the call returns. *)
Definition resolve (instruction : nat) : M nat :=
  record (ResolveCalled instruction);;
  modify_model count_resolve instruction;;
  mret instruction.

(** ** The listeners, run *)

(** [UpdateFire] is [this._onUpdate.fire()].  [DisposeCallback] is the body
    of lines 216-220. *)
Definition run_listener (l : Listener) : M unit :=
  match l with
  | UpdateFire => record UpdateFired
  | DisposeCallback uri instruction =>
      deleteAndLeak (URI.path uri);;
      record UpdateFired;;
      record (RemoveFired instruction)
  end.

Fixpoint run_listeners (ls : list Listener) : M unit :=
  match ls with
  | [] => mret tt
  | l :: rest => run_listener l;; run_listeners rest
  end.

(** Modelled from the spec: [model.dispose()] fires the disposal signal,
    then drops every listener of the model, so that a second call finds none
    to run. *)
Definition dispose (instruction : nat) : M unit :=
  record (DisposeCalled instruction);;
  m ← read_model instruction;
  match m with
  | Some m =>
      run_listeners (Model.onDispose m);;
      modify_model mark_disposed instruction
  | None => mret tt
  end.

(** Modelled from the spec: [DisposableMap.set] disposes the value it
    overwrites, if there is one, and stores the new one. *)
Definition set (key : string) (instruction : nat) : M unit :=
  old ← get key;
  match old with Some o => dispose o | None => mret tt end;;
  modify_store (store_set key instruction);;
  record (Stored key instruction).

(** Modelled from the spec: [DisposableMap.deleteAndDispose], the "evict"
    primitive: dispose the value under the key, then drop the key. *)
Definition deleteAndDispose (key : string) : M unit :=
  record (DeleteAndDispose key);;
  v ← get key;
  match v with Some instruction => dispose instruction | None => mret tt end;;
  modify_store (store_delete key).

(** ** The methods of the collection *)

(** [[...this.attachments.values()]], dereferenced. *)
Definition values (this : Collection) : list Model.t :=
  omap (fun e => heap this !! e.2) (attachments this).

(** Lines 148-176.  [result.push(...xs)] appends [xs] to [result]. *)
Definition chatAttachments (this : Collection) : list Entry.t :=
  let result := [] in
  let attachments := values this in
  fold_left
    (fun result attachment =>
       let reference := Model.reference attachment in
       let result :=
         result ++ map (fun link => toChatVariable link false)
                       (Parser.allValidReferences reference) in
       let result :=
         result ++ [toChatVariable (Ref.Build (Parser.uri reference) true) true] in
       result)
    attachments result.

(** Lines 207-230. *)
Definition add (uri : URI.t) : M bool :=
  present ← has (URI.path uri);
  if present : bool then mret true
  else
    instruction ← createInstance uri;
    instruction ← onUpdate UpdateFire instruction;
    instruction ← onDispose (DisposeCallback uri instruction) instruction;
    set (URI.path uri) instruction;;
    resolve instruction;;
    record (AddFired instruction);;
    record UpdateFired;;
    mret false.

(** Lines 236-245.  The method returns [this]: here, the collection after
    the call. *)
Definition remove (uri : URI.t) (this : Collection) : Collection :=
  if negb (has (URI.path uri) this).1 then this
  else exec (deleteAndDispose (URI.path uri)) this.

(** ** [allSettled] (lines 182-190)

    An [async] function runs synchronously up to its [await]; what it leaves
    behind is the list of promises it waits on and a continuation.  A settle
    promise is named by the address of the model that owns it. *)

Inductive PromiseRef : Type := SettlePromise (instruction : nat).

Definition is_settled (p : PromiseState) : bool :=
  match p with
  | Pending => false
  | Fulfilled | Rejected => true
  end.

(** [Promise.allSettled] (ECMAScript): fulfilled once no input is pending,
    pending until then. *)
Definition Promise_allSettled (inputs : list PromiseState) : PromiseState :=
  if forallb is_settled inputs then Fulfilled else Pending.

(** The synchronous part: the snapshot [[...this.attachments.values()]]
    mapped to each [attachment.allSettled]. *)
Definition allSettled (this : Collection) : list PromiseRef :=
  let attachments := map snd (attachments this) in
  map (fun attachment => SettlePromise attachment) attachments.

(** The state of one settle promise, read in whatever state the program has
    reached. *)
Definition promise_state (now : Collection) (p : PromiseRef) : PromiseState :=
  match p with
  | SettlePromise instruction =>
      from_option Model.allSettled Pending (heap now !! instruction)
  end.

(** The state of the promise the call returned, observed at [now]: the
    [await] resumes the function when the awaited promise fulfils (the body
    then returns), and would throw if it were rejected. *)
Definition allSettled_result (awaited : list PromiseRef) (now : Collection) :
  PromiseState :=
  match Promise_allSettled (map (promise_state now) awaited) with
  | Pending => Pending
  | Fulfilled => Fulfilled
  | Rejected => Rejected
  end.

(** ** What the attachment models do on their own

    Modelled from the spec (section 3, lifecycle of an AttachmentHandle):
    a model mutates its own tree as resolution proceeds, each mutation
    followed by an update notification; it settles its promise; it may
    dispose itself. *)

Definition with_references (refs : list Ref.t) (m : Model.t) : Model.t :=
  Model.Build (Model.uri m)
    (Parser.Build (Parser.uri (Model.reference m))
       (Parser.isPromptFile (Model.reference m)) refs)
    (Model.onUpdate m) (Model.onDispose m) (Model.resolveCalls m) (Model.disposed m)
    (Model.allSettled m).

Definition with_outcome (outcome : PromiseState) (m : Model.t) : Model.t :=
  match Model.allSettled m with
  | Pending =>
      Model.Build (Model.uri m) (Model.reference m) (Model.onUpdate m)
        (Model.onDispose m) (Model.resolveCalls m) (Model.disposed m) outcome
  | Fulfilled | Rejected => m
  end.

(** Modelled from the spec: resolution found the references [refs]; the
    model fires its update event.  A disposed model does nothing. *)
Definition model_update (refs : list Ref.t) (instruction : nat) : M unit :=
  m ← read_model instruction;
  match m with
  | Some m =>
      if Model.disposed m then mret tt
      else
        modify_model (with_references refs) instruction;;
        run_listeners (Model.onUpdate m)
  | None => mret tt
  end.

(** Modelled from the spec: the settle promise of the model leaves the
    pending state.  [Rejected] is allowed, to cover a resolution that
    throws. *)
Definition model_settle (outcome : PromiseState) (instruction : nat) : M unit :=
  modify_model (with_outcome outcome) instruction.

(** One step of the whole system: a call of a method of the collection, or
    something an attachment model does.  An event the collection fires is
    observed (it is logged); what its subscribers do in answer is not part
    of the step.  A subscriber that calls back into the collection while an
    event fires, for instance one that calls [add] from inside the removed
    event, is therefore outside this relation, and so are the states only
    such a call can reach. *)
Inductive step : Collection -> Collection -> Prop :=
| step_add uri this : step this (exec (add uri) this)
| step_remove uri this : step this (remove uri this)
| step_dispose instruction this : step this (exec (dispose instruction) this)
| step_update refs instruction this :
    step this (exec (model_update refs instruction) this)
| step_settle outcome instruction this :
    step this (exec (model_settle outcome instruction) this).

Definition reachable (this : Collection) : Prop := rtc step create this.

(** ** The invariant of the collection *)

(** What [add] leaves in the heap for the model it stores under [key]. *)
Record live_under (key : string) (instruction : nat) (m : Model.t) : Prop :=
  { live_path : URI.path (Model.uri m) = key;
    live_root : Parser.uri (Model.reference m) = Model.uri m;
    live_onUpdate : Model.onUpdate m = [UpdateFire];
    live_onDispose : Model.onDispose m = [DisposeCallback (Model.uri m) instruction];
    live_resolved : Model.resolveCalls m = 1;
    live_not_disposed : Model.disposed m = false }.

(** A model outside the map has been disposed and has no listener left. *)
Record retired (m : Model.t) : Prop :=
  { retired_onUpdate : Model.onUpdate m = [];
    retired_onDispose : Model.onDispose m = [];
    retired_disposed : Model.disposed m = true }.

Record wf (this : Collection) : Prop :=
  { wf_keys : NoDup (attachments this).*1;
    wf_stored : forall key instruction,
      (key, instruction) ∈ attachments this ->
      exists m, heap this !! instruction = Some m /\ live_under key instruction m;
    wf_heap : forall instruction m,
      heap this !! instruction = Some m ->
      retired m \/ (URI.path (Model.uri m), instruction) ∈ attachments this }.

(** ** Auxiliary definitions used to state the properties *)

(** How many handles the map holds under a key. *)
Definition handles_under (key : string) (this : Collection) : nat :=
  length (List.filter (key_is key) (attachments this)).

(** The effect of one listener on the map, and the steps it logs. *)
Definition listener_store (store : list (string * nat)) (l : Listener) :
  list (string * nat) :=
  match l with
  | UpdateFire => store
  | DisposeCallback uri _ => store_delete (URI.path uri) store
  end.

Definition listener_steps (l : Listener) : list Step :=
  match l with
  | UpdateFire => [UpdateFired]
  | DisposeCallback uri instruction =>
      [DeleteAndLeak (URI.path uri); UpdateFired; RemoveFired instruction]
  end.

(** The model [add uri] leaves at address [instruction]. *)
Definition added_model (uri : URI.t) (instruction : nat) : Model.t :=
  {| Model.uri := uri;
     Model.reference := Parser.Build uri (isPromptFileUri uri) [];
     Model.onUpdate := [UpdateFire];
     Model.onDispose := [DisposeCallback uri instruction];
     Model.resolveCalls := 1;
     Model.disposed := false;
     Model.allSettled := Pending |}.

(** The entries of one attachment as the specification words them: one
    non-root entry per node of [allValidReferences], in order, then the root
    entry. *)
Definition child_entries (m : Model.t) : list Entry.t :=
  map (fun node => toChatVariable node false)
      (Parser.allValidReferences (Model.reference m)).

Definition root_entry (m : Model.t) : Entry.t :=
  {| Entry.id :=
       "vscode.prompt.instructions.root__" +:+ uriToString (Parser.uri (Model.reference m));
     Entry.name := "prompt:" +:+ basename (Parser.uri (Model.reference m));
     Entry.value := Parser.uri (Model.reference m);
     Entry.kind := "file";
     Entry.modelDescription := Some "Prompt instructions file" |}.

Definition chatAttachments_spec (handles : list Model.t) : list Entry.t :=
  concat (map (fun m => child_entries m ++ [root_entry m]) handles).

(** The same model with another flag on the root of its tree. *)
Definition with_root_flag (flag : bool) (m : Model.t) : Model.t :=
  Model.Build (Model.uri m)
    (Parser.Build (Parser.uri (Model.reference m)) flag
       (Parser.allValidReferences (Model.reference m)))
    (Model.onUpdate m) (Model.onDispose m) (Model.resolveCalls m) (Model.disposed m)
    (Model.allSettled m).

End Methods.

(** ** The view [references]

    [child.references] is a getter of [ChatPromptAttachmentModel], defined
    outside the collection's file: the list of URIs a handle reports for its
    tree, computed from the state of the handle.  It is a parameter. *)
Class HandleOps : Type :=
  { modelReferences : Model.t -> list URI.t }.

Section References.
Context {handleOps : HandleOps}.

(** Lines 134-142.  [result.push(...child.references)] appends the list the
    handle reports. *)
Definition references (this : Collection) : list URI.t :=
  let result := [] in
  fold_left (fun result child => result ++ modelReferences child) (values this) result.

End References.

(** ** More auxiliary definitions *)

(** The collection with another map over the same heap and log. *)
Definition with_store (store : list (string * nat)) (this : Collection) : Collection :=
  BuildCollection store (heap this) (log this).

(** The steps by which a handle leaves the collection. *)
Definition is_teardown (s : Step) : bool :=
  match s with
  | RemoveFired _ | DeleteAndLeak _ | DeleteAndDispose _ | DisposeCalled _ => true
  | _ => false
  end.

(** How many children of a handle are prompt files. *)
Definition prompt_children (m : Model.t) : nat :=
  length (List.filter Ref.isPromptFile (Parser.allValidReferences (Model.reference m))).

Definition all_children (m : Model.t) : nat :=
  length (Parser.allValidReferences (Model.reference m)).

(** ** Sample data

    A concrete reading of the parameters and a few states, used to run the
    definitions on the scenarios of the specification. *)

Fixpoint after_last_slash (s current : string) : string :=
  match s with
  | EmptyString => current
  | String c rest =>
      if Ascii.eqb c "/"%char then after_last_slash rest EmptyString
      else after_last_slash rest (current +:+ String c EmptyString)
  end.

Definition sampleUriOps : UriOps :=
  {| uriToString := fun u => URI.scheme u +:+ "://" +:+ URI.authority u +:+ URI.path u;
     basename := fun u => after_last_slash (URI.path u) EmptyString |}.

Definition sampleParserOps : ParserOps :=
  {| isPromptFileUri := fun u =>
       String.prefix "dm.tpmorp." (String.rev (URI.path u)) |}.

Definition fileUri (path : string) : URI.t :=
  URI.Build "file" EmptyString path EmptyString EmptyString.

Definition a_prompt : URI.t := fileUri "/w/a.prompt.md".
Definition b_prompt : URI.t := fileUri "/w/b.prompt.md".
Definition x_md : URI.t := fileUri "/w/x.md".
Definition c1_prompt : URI.t := fileUri "/w/c1.prompt.md".
Definition c2_md : URI.t := fileUri "/w/c2.md".

(** An unsaved document with the path of [a_prompt]. *)
Definition a_untitled : URI.t :=
  URI.Build "untitled" EmptyString "/w/a.prompt.md" EmptyString EmptyString.

(** [a.prompt.md] attached. *)
Definition one_attached : Collection :=
  exec (add (parserOps := sampleParserOps) a_prompt) create.

(** [a.prompt.md] attached, resolved to the children [c1.prompt.md] and
    [c2.md], in that order. *)
Definition one_resolved : Collection :=
  exec (model_update [Ref.Build c1_prompt true; Ref.Build c2_md false] 0) one_attached.

(** [a.prompt.md] (no child) and [b.prompt.md] (one child, [x.md], not a
    prompt file) attached, in that order. *)
Definition two_attached : Collection :=
  exec (model_update [Ref.Build x_md false] 1)
    (exec (add (parserOps := sampleParserOps) b_prompt) one_attached).

Definition model_a : Model.t := added_model (parserOps := sampleParserOps) a_prompt 0.

Definition model_b : Model.t :=
  with_references [Ref.Build x_md false]
    (added_model (parserOps := sampleParserOps) b_prompt 1).

(** An entry of another kind whose name happens to begin with [prompt:]. *)
Definition image_entry : Entry.t :=
  {| Entry.id := "img";
     Entry.name := "prompt:picture.png";
     Entry.value := fileUri "/w/picture.png";
     Entry.kind := "image";
     Entry.modelDescription := None |}.

Definition file_entry : Entry.t :=
  {| Entry.id := "file:///w/foo.txt";
     Entry.name := "file:foo.txt";
     Entry.value := fileUri "/w/foo.txt";
     Entry.kind := "file";
     Entry.modelDescription := None |}.

(** [a.prompt.md] again, with a query the sample [uriToString] leaves out. *)
Definition a_prompt_query : URI.t :=
  URI.Build "file" EmptyString "/w/a.prompt.md" "v=2" EmptyString.

(** A sample reading of [child.references]: the children, then the root. *)
Definition sampleHandleOps : HandleOps :=
  {| modelReferences := fun m =>
       map Ref.uri (Parser.allValidReferences (Model.reference m))
       ++ [Parser.uri (Model.reference m)] |}.
(** * Properties *)

(** ** Strings *)

Lemma append_cons (a : Ascii.ascii) (p rest : string) :
  String a p +:+ rest = String a (p +:+ rest).
Proof. reflexivity. Qed.

Lemma prefix_true_iff (p s : string) :
  String.prefix p s = true <-> exists rest, s = p +:+ rest.
Proof.
  revert s. induction p as [|a p IH]; intros [|b s]; simpl.
  - split; [by exists EmptyString | done].
  - split; [by exists (String b s) | done].
  - split; [done | intros [rest Hrest]; rewrite append_cons in Hrest; discriminate].
  - destruct (Ascii.ascii_dec a b) as [->|Hne].
    + rewrite IH. split; intros [rest Hrest]; exists rest;
        rewrite append_cons in *; congruence.
    + split; [done | intros [rest Hrest]; rewrite append_cons in Hrest; congruence].
Qed.

Lemma prefix_append (p rest : string) : String.prefix p (p +:+ rest) = true.
Proof. apply prefix_true_iff. by exists rest. Qed.

Lemma prefix_file_name (rest : string) :
  String.prefix "prompt:" ("file:" +:+ rest) = false.
Proof. rewrite append_cons. reflexivity. Qed.

(** ** The encoders *)

Section EncoderProperties.
Context {uriOps : UriOps}.

Lemma createPromptVariableId_root (uri : URI.t) :
  createPromptVariableId uri true =
  "vscode.prompt.instructions.root__" +:+ uriToString uri.
Proof. reflexivity. Qed.

Lemma createPromptVariableId_child (uri : URI.t) :
  createPromptVariableId uri false =
  "vscode.prompt.instructions__" +:+ uriToString uri.
Proof. reflexivity. Qed.

(** C3.  For every node and root flag, [toChatVariable] yields: the id
    [uri.toString()] for a file that is not a prompt file, and for a prompt
    file the namespace prefix, then [.root] exactly when the node is the
    root, then [__], then the string form of the URI; the name
    [prompt:<basename>] for a prompt file and [file:<basename>] otherwise;
    the fixed model description for a prompt file and none otherwise. *)
Theorem toChatVariable_fields (uri : URI.t) (isPromptFile isRoot : bool) :
  let entry := toChatVariable (Ref.Build uri isPromptFile) isRoot in
  Entry.id entry =
    (if isPromptFile
     then "vscode.prompt.instructions" +:+ (if isRoot then ".root" else EmptyString)
          +:+ "__" +:+ uriToString uri
     else uriToString uri)
  /\ Entry.name entry =
       (if isPromptFile then "prompt:" else "file:") +:+ basename uri
  /\ Entry.modelDescription entry =
       (if isPromptFile then Some "Prompt instructions file" else None)
  /\ Entry.value entry = uri
  /\ Entry.kind entry = "file".
Proof. destruct isPromptFile, isRoot; repeat split. Qed.

(** C7.  [createPromptVariableId] is a function of its two arguments alone
    (equal arguments give equal identifiers), and for every URI the root and
    the non-root identifier differ. *)
Theorem createPromptVariableId_stable_and_distinct :
  (forall (u u' : URI.t) (r r' : bool),
      u = u' -> r = r' -> createPromptVariableId u r = createPromptVariableId u' r')
  /\ (forall u : URI.t, createPromptVariableId u true <> createPromptVariableId u false).
Proof.
  split.
  - intros u u' r r' -> ->. reflexivity.
  - intros u. rewrite createPromptVariableId_root, createPromptVariableId_child.
    simpl. discriminate.
Qed.

(** C10.  The prompt-file flag of a node is recovered from the entry made of
    it: [isPromptFileChatVariable (toChatVariable node b)] is the node's
    [isPromptFile], for every root flag [b]. *)
Theorem isPromptFileChatVariable_toChatVariable (uri : URI.t) (isPromptFile b : bool) :
  isPromptFileChatVariable (toChatVariable (Ref.Build uri isPromptFile) b) = isPromptFile.
Proof.
  unfold isPromptFileChatVariable, isChatRequestFileEntry.
  destruct isPromptFile; simpl.
  - apply (prefix_append "prompt:").
  - apply (prefix_file_name (basename uri)).
Qed.

End EncoderProperties.

(** C8.  [isPromptFileChatVariable] answers [true] exactly on the entries of
    kind [file] whose name begins with [prompt:]; on an entry whose name
    begins with [file:], such as [file:foo.txt], it answers [false]. *)
Theorem isPromptFileChatVariable_iff :
  (forall e : Entry.t,
      isPromptFileChatVariable e = true <->
      Entry.kind e = "file" /\ exists rest, Entry.name e = "prompt:" +:+ rest)
  /\ (forall (e : Entry.t) (rest : string),
        Entry.name e = "file:" +:+ rest -> isPromptFileChatVariable e = false).
Proof.
  split.
  - intros e. unfold isPromptFileChatVariable, isChatRequestFileEntry.
    rewrite andb_true_iff, String.eqb_eq, prefix_true_iff. reflexivity.
  - intros e rest Hname. unfold isPromptFileChatVariable.
    rewrite Hname, prefix_file_name. apply andb_false_r.
Qed.

(** ** The store of the [DisposableMap] *)

Lemma store_has_cons (key : string) (e : string * nat) (store : list (string * nat)) :
  store_has key (e :: store) = key_is key e || store_has key store.
Proof. reflexivity. Qed.

Lemma store_has_false (key : string) (store : list (string * nat)) :
  store_has key store = false <-> key ∉ store.*1.
Proof.
  induction store as [|[k v] store IH]; simpl.
  - split; [intros _; apply not_elem_of_nil | done].
  - rewrite orb_false_iff, IH, not_elem_of_cons. unfold key_is; simpl.
    rewrite String.eqb_neq. split; intros [? ?]; split; try congruence; assumption.
Qed.

Lemma store_has_true (key : string) (store : list (string * nat)) :
  store_has key store = true <-> key ∈ store.*1.
Proof.
  destruct (store_has key store) eqn:E.
  - split; [intros _ | done]. destruct (decide (key ∈ store.*1)) as [|Hn]; [done|].
    apply store_has_false in Hn. congruence.
  - apply store_has_false in E. split; [done | by intros].
Qed.

Lemma store_get_None (key : string) (store : list (string * nat)) :
  store_has key store = false -> store_get key store = None.
Proof.
  unfold store_get. induction store as [|e store IH]; [done|].
  rewrite store_has_cons. simpl.
  intros [-> Hrest]%orb_false_iff. by apply IH.
Qed.

Lemma store_get_Some (key : string) (store : list (string * nat)) :
  store_has key store = true ->
  exists instruction,
    store_get key store = Some instruction /\ (key, instruction) ∈ store.
Proof.
  unfold store_get. induction store as [|[k v] store IH]; [done|].
  rewrite store_has_cons. simpl.
  unfold key_is at 1 2; simpl. destruct (String.eqb_spec k key) as [->|Hne]; simpl.
  - intros _. exists v. split; [done | apply list_elem_of_here].
  - intros [i [Hi Hin]]%IH. exists i. split; [done | by apply list_elem_of_further].
Qed.

Lemma store_get_unique (key : string) (instruction : nat) (store : list (string * nat)) :
  NoDup store.*1 -> (key, instruction) ∈ store -> store_get key store = Some instruction.
Proof.
  unfold store_get. induction store as [|[k v] store IH]; simpl.
  - intros _ Hin. by apply elem_of_nil in Hin.
  - intros [Hk Hnd]%NoDup_cons Hin. unfold key_is at 1; simpl.
    apply elem_of_cons in Hin as [[= -> ->]|Hin].
    + by rewrite String.eqb_refl.
    + destruct (String.eqb_spec k key) as [->|Hne]; [|by apply IH].
      exfalso. apply Hk. apply list_elem_of_fmap. by exists (key, instruction).
Qed.

Lemma store_set_absent (key : string) (v : nat) (store : list (string * nat)) :
  store_has key store = false -> store_set key v store = store ++ [(key, v)].
Proof.
  induction store as [|e store IH]; [done|].
  rewrite store_has_cons. simpl.
  intros [-> Hrest]%orb_false_iff. by rewrite IH.
Qed.

Lemma store_delete_absent (key : string) (store : list (string * nat)) :
  store_has key store = false -> store_delete key store = store.
Proof.
  unfold store_delete. induction store as [|e store IH]; [done|].
  rewrite store_has_cons. simpl.
  intros [-> Hrest]%orb_false_iff. simpl. by rewrite IH.
Qed.

Lemma store_has_delete (key : string) (store : list (string * nat)) :
  store_has key (store_delete key store) = false.
Proof.
  unfold store_delete. induction store as [|e store IH]; [done|]. simpl.
  destruct (key_is key e) eqn:E; simpl; [done|]. by rewrite E.
Qed.

Lemma elem_of_store_delete (key : string) (e : string * nat) (store : list (string * nat)) :
  e ∈ store_delete key store <-> e ∈ store /\ e.1 <> key.
Proof.
  unfold store_delete. rewrite !list_elem_of_In, filter_In.
  unfold key_is. rewrite negb_true_iff, String.eqb_neq. reflexivity.
Qed.

Lemma store_delete_idem (key : string) (store : list (string * nat)) :
  store_delete key (store_delete key store) = store_delete key store.
Proof. apply store_delete_absent, store_has_delete. Qed.

Lemma store_delete_keys (key : string) (store : list (string * nat)) :
  NoDup store.*1 -> NoDup (store_delete key store).*1.
Proof.
  induction store as [|[k v] store IH]; [done|].
  intros [Hk Hnd]%NoDup_cons. unfold store_delete. simpl.
  destruct (negb (key_is key (k, v))); simpl; [|by apply IH].
  apply NoDup_cons. split; [|by apply IH].
  intros [[k' v'] [Hk' [Hin _]%elem_of_store_delete]]%list_elem_of_fmap.
  simpl in Hk'. subst k'.
  apply Hk. apply list_elem_of_fmap. by exists (k, v').
Qed.

Lemma filter_key_absent (key : string) (store : list (string * nat)) :
  store_has key store = false -> List.filter (key_is key) store = [].
Proof.
  induction store as [|e store IH]; [done|].
  rewrite store_has_cons. simpl.
  intros [-> Hrest]%orb_false_iff. by apply IH.
Qed.

Lemma filter_key_unique (key : string) (store : list (string * nat)) :
  NoDup store.*1 -> store_has key store = true ->
  length (List.filter (key_is key) store) = 1.
Proof.
  induction store as [|[k v] store IH]; [done|].
  rewrite store_has_cons. simpl.
  intros [Hk Hnd]%NoDup_cons. unfold key_is at 1 2; simpl.
  destruct (String.eqb_spec k key) as [->|Hne]; simpl.
  - intros _. rewrite filter_key_absent; [done|]. by apply store_has_false.
  - by apply IH.
Qed.

(** ** Running the methods *)

Section CollectionProperties.
Context {uriOps : UriOps} {parserOps : ParserOps}.

Lemma add_present (uri : URI.t) (this : Collection) :
  store_has (URI.path uri) (attachments this) = true -> add uri this = (true, this).
Proof. intros Hhas. unfold add, mbind, M_bind, has. by rewrite Hhas. Qed.

Lemma add_absent (uri : URI.t) (this : Collection) :
  store_has (URI.path uri) (attachments this) = false ->
  let instruction := fresh (dom (heap this)) in
  add uri this =
  (false,
   BuildCollection
     (attachments this ++ [(URI.path uri, instruction)])
     (<[instruction := added_model uri instruction]> (heap this))
     (log this ++ [Constructed instruction uri; UpdateWired instruction;
                   DisposeWired instruction; Stored (URI.path uri) instruction;
                   ResolveCalled instruction; AddFired instruction; UpdateFired])).
Proof.
  intros Hhas instruction. unfold add, mbind, M_bind, has. rewrite Hhas.
  unfold createInstance, onUpdate, onDispose, set, resolve, get, record, modify_model,
    modify_store, mbind, M_bind, mret, M_ret. simpl.
  rewrite (store_get_None _ _ Hhas). simpl.
  rewrite !alter_insert_eq, store_set_absent by done.
  rewrite <- !app_assoc. reflexivity.
Qed.

Lemma run_listener_eq (l : Listener) (this : Collection) :
  run_listener l this =
  (tt, BuildCollection (listener_store (attachments this) l) (heap this)
         (log this ++ listener_steps l)).
Proof.
  destruct l as [|uri instruction]; [reflexivity|].
  unfold run_listener, deleteAndLeak, get, record, modify_store, mbind, M_bind, mret,
    M_ret. simpl. rewrite <- !app_assoc. reflexivity.
Qed.

Lemma run_listeners_eq (ls : list Listener) (this : Collection) :
  run_listeners ls this =
  (tt, BuildCollection (fold_left listener_store ls (attachments this)) (heap this)
         (log this ++ concat (map listener_steps ls))).
Proof.
  revert this. induction ls as [|l ls IH]; intros this; simpl.
  - rewrite app_nil_r. by destruct this.
  - unfold mbind, M_bind. rewrite run_listener_eq, IH. simpl.
    by rewrite <- app_assoc.
Qed.

Lemma dispose_eq (instruction : nat) (this : Collection) :
  dispose instruction this =
  match heap this !! instruction with
  | Some m =>
      (tt, BuildCollection
             (fold_left listener_store (Model.onDispose m) (attachments this))
             (alter mark_disposed instruction (heap this))
             (log this ++ DisposeCalled instruction
                          :: concat (map listener_steps (Model.onDispose m))))
  | None =>
      (tt, BuildCollection (attachments this) (heap this)
             (log this ++ [DisposeCalled instruction]))
  end.
Proof.
  unfold dispose, record, read_model, modify_model, mbind, M_bind. simpl.
  destruct (heap this !! instruction) as [m|]; [|reflexivity].
  rewrite run_listeners_eq. simpl. by rewrite <- app_assoc.
Qed.

Lemma deleteAndDispose_eq (key : string) (this : Collection) :
  deleteAndDispose key this =
  match store_get key (attachments this) with
  | Some instruction =>
      let this' :=
        exec (dispose instruction)
          (BuildCollection (attachments this) (heap this)
             (log this ++ [DeleteAndDispose key])) in
      (tt, BuildCollection (store_delete key (attachments this')) (heap this')
             (log this'))
  | None =>
      (tt, BuildCollection (store_delete key (attachments this)) (heap this)
             (log this ++ [DeleteAndDispose key]))
  end.
Proof.
  unfold deleteAndDispose, exec, get, record, modify_store, mbind, M_bind. simpl.
  destruct (store_get key (attachments this)) as [instruction|]; [|reflexivity].
  by destruct (dispose instruction _) as [[] this'].
Qed.

Lemma remove_absent (uri : URI.t) (this : Collection) :
  store_has (URI.path uri) (attachments this) = false -> remove uri this = this.
Proof. intros Hhas. unfold remove, has. simpl. by rewrite Hhas. Qed.

Lemma remove_present (uri : URI.t) (this : Collection) (instruction : nat) :
  store_get (URI.path uri) (attachments this) = Some instruction ->
  remove uri this =
  BuildCollection
    (store_delete (URI.path uri)
       (match heap this !! instruction with
        | Some m => fold_left listener_store (Model.onDispose m) (attachments this)
        | None => attachments this
        end))
    (alter mark_disposed instruction (heap this))
    (log this ++ DeleteAndDispose (URI.path uri) :: DisposeCalled instruction ::
       match heap this !! instruction with
       | Some m => concat (map listener_steps (Model.onDispose m))
       | None => []
       end).
Proof.
  intros Hget. unfold remove, has. simpl.
  destruct (store_has (URI.path uri) (attachments this)) eqn:Hhas; simpl.
  - unfold exec. rewrite deleteAndDispose_eq, Hget. simpl.
    unfold exec. rewrite dispose_eq. simpl.
    destruct (heap this !! instruction) as [m|] eqn:Hm; simpl.
    + by rewrite <- app_assoc.
    + rewrite <- app_assoc. simpl. f_equal.
      symmetry. apply alter_id'. by rewrite Hm. 
  - apply store_get_None in Hhas. congruence.
Qed.

(** ** The view [chatAttachments] *)

Lemma root_entry_eq (m : Model.t) :
  toChatVariable (Ref.Build (Parser.uri (Model.reference m)) true) true = root_entry m.
Proof. reflexivity. Qed.

Lemma chatAttachments_loop (handles : list Model.t) (result : list Entry.t) :
  fold_left
    (fun result attachment =>
       (result ++ map (fun link => toChatVariable link false)
                      (Parser.allValidReferences (Model.reference attachment)))
       ++ [toChatVariable
             (Ref.Build (Parser.uri (Model.reference attachment)) true) true])
    handles result
  = result ++ chatAttachments_spec handles.
Proof.
  revert result. induction handles as [|m handles IH]; intros result; simpl.
  - by rewrite app_nil_r.
  - rewrite IH, root_entry_eq. unfold chatAttachments_spec, child_entries. simpl.
    by rewrite <- !app_assoc.
Qed.

Lemma chatAttachments_spec_app (xs ys : list Model.t) :
  chatAttachments_spec (xs ++ ys) = chatAttachments_spec xs ++ chatAttachments_spec ys.
Proof. unfold chatAttachments_spec. by rewrite map_app, concat_app. Qed.

(** C1.  In every state of the collection, [chatAttachments] is, handle by
    handle in insertion order, the non-root entries of the nodes of
    [allValidReferences] in that array's order followed by the one root
    entry of the handle, which is a prompt-file entry whatever flag the root
    node carries; so the entries of an attachment's descendants come right
    before its own root entry, after everything of the handles inserted
    earlier and before everything of those inserted later. *)
Theorem chatAttachments_order (this : Collection) :
  chatAttachments this = chatAttachments_spec (values this)
  /\ (forall (earlier later : list Model.t) (m : Model.t),
        values this = earlier ++ m :: later ->
        chatAttachments this =
          chatAttachments_spec earlier
          ++ map (fun node => toChatVariable node false)
                 (Parser.allValidReferences (Model.reference m))
          ++ toChatVariable
               (Ref.Build (Parser.uri (Model.reference m)) true) true
             :: chatAttachments_spec later).
Proof.
  assert (Hspec : chatAttachments this = chatAttachments_spec (values this)).
  { unfold chatAttachments. by rewrite chatAttachments_loop. }
  split; [exact Hspec|].
  intros earlier later m Hvalues.
  rewrite Hspec, Hvalues, chatAttachments_spec_app, root_entry_eq.
  unfold chatAttachments_spec at 2. simpl. by rewrite <- app_assoc.
Qed.

Lemma values_fmap (f : Model.t -> Model.t) (store : list (string * nat))
    (hp : gmap nat Model.t) (lg : list Step) :
  values (BuildCollection store (f <$> hp) lg) = map f (values (BuildCollection store hp lg)).
Proof.
  unfold values. simpl. induction store as [|[key instruction] store IH]; simpl; [done|].
  rewrite lookup_fmap. destruct (hp !! instruction) as [m|]; simpl; [|exact IH].
  f_equal. exact IH.
Qed.

Lemma chatAttachments_spec_root_flag (flag : bool) (handles : list Model.t) :
  chatAttachments_spec (map (with_root_flag flag) handles) = chatAttachments_spec handles.
Proof.
  unfold chatAttachments_spec. induction handles as [|m handles IH]; simpl; [done|].
  by rewrite IH.
Qed.

(** The flag of the root node plays no part in the view. *)
Lemma chatAttachments_ignores_root_flag (flag : bool) (this : Collection) :
  chatAttachments
    (BuildCollection (attachments this) (with_root_flag flag <$> heap this) (log this))
  = chatAttachments this.
Proof.
  unfold chatAttachments. rewrite !chatAttachments_loop. f_equal.
  rewrite values_fmap, chatAttachments_spec_root_flag. by destruct this.
Qed.

(** ** [add] *)

Lemma handles_under_added (key : string) (instruction : nat)
    (store : list (string * nat)) (hp : gmap nat Model.t) (lg : list Step) :
  store_has key store = false ->
  handles_under key (BuildCollection (store ++ [(key, instruction)]) hp lg) = 1.
Proof.
  intros Hhas. unfold handles_under. simpl.
  rewrite List.filter_app, filter_key_absent by done. simpl.
  unfold key_is; simpl. by rewrite String.eqb_refl.
Qed.

Lemma has_after_add (uri : URI.t) (this : Collection) :
  store_has (URI.path uri) (attachments (exec (add uri) this)) = true.
Proof.
  unfold exec. destruct (store_has (URI.path uri) (attachments this)) eqn:Hhas.
  - by rewrite add_present.
  - rewrite add_absent by done. simpl. apply store_has_true.
    rewrite fmap_app. apply elem_of_app. right. simpl. apply list_elem_of_here.
Qed.

Lemma add_same_path (this : Collection) (u1 u2 : URI.t) :
  URI.path u1 = URI.path u2 ->
  let once := exec (add u1) this in
  let twice := exec (add u2) once in
  (store_has (URI.path u1) (attachments this) = false ->
     (add u1 this).1 = false /\ handles_under (URI.path u1) twice = 1)
  /\ add u2 once = (true, once)
  /\ (NoDup (attachments this).*1 -> handles_under (URI.path u1) twice = 1).
Proof.
  intros Hpath once twice.
  assert (Hsecond : add u2 once = (true, once)).
  { apply add_present. rewrite <- Hpath. apply has_after_add. }
  assert (Htwice : twice = once).
  { unfold twice, exec. by rewrite Hsecond. }
  rewrite Htwice. unfold once, exec. split; [|split; [done|]].
  - intros Hhas. rewrite add_absent by done. simpl. split; [done|].
    by apply handles_under_added.
  - intros Hkeys. destruct (store_has (URI.path u1) (attachments this)) eqn:Hhas.
    + rewrite add_present by done. simpl. by apply filter_key_unique.
    + rewrite add_absent by done. by apply handles_under_added.
Qed.

(** ** [remove] *)

(** C9.  [remove uri] on a key the collection does not hold returns the
    collection as it was: same members, same models, nothing logged, so
    no event fired.  On a key it holds, the handle stored under the key has
    been disposed and the key is gone when the call returns. *)
Theorem remove_absent_or_present (uri : URI.t) (this : Collection) :
  (store_has (URI.path uri) (attachments this) = false -> remove uri this = this)
  /\ (store_has (URI.path uri) (attachments this) = true ->
      exists instruction,
        store_get (URI.path uri) (attachments this) = Some instruction
        /\ store_has (URI.path uri) (attachments (remove uri this)) = false
        /\ heap (remove uri this) = alter mark_disposed instruction (heap this)
        /\ exists rest,
             log (remove uri this) =
               log this ++ DeleteAndDispose (URI.path uri)
                           :: DisposeCalled instruction :: rest).
Proof.
  split; [apply remove_absent|].
  intros [instruction [Hget _]]%store_get_Some. exists instruction.
  rewrite (remove_present _ _ _ Hget). simpl.
  split; [done|]. split; [apply store_has_delete|]. split; [done|]. eauto.
Qed.

(** ** The invariant *)

Lemma wf_log (store : list (string * nat)) (hp : gmap nat Model.t) (lg lg' : list Step) :
  wf (BuildCollection store hp lg) -> wf (BuildCollection store hp lg').
Proof. intros [Hkeys Hstored Hheap]. by split. Qed.

Lemma wf_create : wf create.
Proof.
  split; simpl.
  - apply NoDup_nil_2.
  - intros key instruction Hin. by apply elem_of_nil in Hin.
  - intros instruction m Hm. by rewrite lookup_empty in Hm.
Qed.

Lemma fresh_address (this : Collection) : heap this !! fresh (dom (heap this)) = None.
Proof. apply not_elem_of_dom, is_fresh. Qed.

Lemma added_model_live (uri : URI.t) (instruction : nat) :
  live_under (URI.path uri) instruction (added_model uri instruction).
Proof. by split. Qed.

Lemma stored_address_unique (this : Collection) (key : string) (a b : nat) :
  wf this -> (key, a) ∈ attachments this -> (key, b) ∈ attachments this -> a = b.
Proof.
  intros [Hkeys _ _] Ha Hb.
  apply (store_get_unique _ _ _ Hkeys) in Ha, Hb. congruence.
Qed.

Lemma wf_add (uri : URI.t) (this : Collection) : wf this -> wf (exec (add uri) this).
Proof.
  intros Hwf. unfold exec.
  destruct (store_has (URI.path uri) (attachments this)) eqn:Hhas.
  { by rewrite add_present. }
  rewrite add_absent by done. simpl.
  pose proof (fresh_address this) as Hfresh.
  destruct Hwf as [Hkeys Hstored Hheap]. split; simpl.
  - rewrite fmap_app. apply NoDup_app. split; [done|]. split.
    + intros key Hin [->|Habs%elem_of_nil]%elem_of_cons; [|done].
      by apply store_has_false in Hhas.
    + apply NoDup_singleton.
  - intros key instruction [Hin|[[= -> ->]|Habs%elem_of_nil]%elem_of_cons]%elem_of_app;
      [| |done].
    + destruct (Hstored _ _ Hin) as [m [Hm Hlive]]. exists m. split; [|done].
      rewrite lookup_insert_ne; [done|]. intros <-. congruence.
    + exists (added_model uri (fresh (dom (heap this)))).
      split; [apply lookup_insert_eq | apply added_model_live].
  - intros instruction m. rewrite lookup_insert. case_decide as Heq.
    + intros [= <-]. subst instruction. right. simpl.
      apply elem_of_app. right. apply list_elem_of_here.
    + intros [Hret|Hin]%Hheap; [by left|]. right. apply elem_of_app. by left.
Qed.

(** Forgetting a stored handle and marking it disposed keeps the invariant. *)
Lemma wf_forget (this : Collection) (key : string) (instruction : nat) (lg : list Step) :
  wf this -> (key, instruction) ∈ attachments this ->
  wf (BuildCollection (store_delete key (attachments this))
        (alter mark_disposed instruction (heap this)) lg).
Proof.
  intros Hwf Hin. pose proof Hwf as [Hkeys Hstored Hheap].
  destruct (Hstored _ _ Hin) as [m [Hm Hlive]]. split; simpl.
  - by apply store_delete_keys.
  - intros k j [Hj Hk]%elem_of_store_delete. simpl in Hk.
    destruct (Hstored _ _ Hj) as [m' [Hm' Hlive']]. exists m'. split; [|done].
    rewrite lookup_alter_ne; [done|]. intros <-.
    assert (m' = m) as -> by congruence.
    destruct Hlive, Hlive'. congruence.
  - intros j m'. rewrite lookup_alter. case_decide as Heq.
    + subst j. rewrite Hm. intros [= <-]. by left.
    + intros [Hret|Hj]%Hheap; [by left|]. right.
      apply elem_of_store_delete. split; [done|]. simpl. intros Hk.
      rewrite Hk in Hj. apply Heq. by eapply stored_address_unique.
Qed.

Lemma wf_alter_retired (this : Collection) (instruction : nat) (m : Model.t)
    (f : Model.t -> Model.t) (lg : list Step) :
  wf this -> heap this !! instruction = Some m -> retired m -> retired (f m) ->
  wf (BuildCollection (attachments this) (alter f instruction (heap this)) lg).
Proof.
  intros [Hkeys Hstored Hheap] Hm Hret Hfret. split; simpl; [done| |].
  - intros k j Hj. destruct (Hstored _ _ Hj) as [m' [Hm' Hlive']].
    exists m'. split; [|done]. rewrite lookup_alter_ne; [done|]. intros <-.
    assert (m' = m) as -> by congruence.
    destruct Hret, Hlive'. congruence.
  - intros j m'. rewrite lookup_alter. case_decide as Heq.
    + subst j. rewrite Hm. intros [= <-]. by left.
    + apply Hheap.
Qed.

Lemma wf_alter_live (this : Collection) (instruction : nat)
    (f : Model.t -> Model.t) (lg : list Step) :
  wf this ->
  (forall m, retired m -> retired (f m)) ->
  (forall key m, live_under key instruction m -> live_under key instruction (f m)) ->
  (forall m, Model.uri (f m) = Model.uri m) ->
  wf (BuildCollection (attachments this) (alter f instruction (heap this)) lg).
Proof.
  intros [Hkeys Hstored Hheap] Hfret Hflive Hfuri. split; simpl; [done| |].
  - intros k j Hj. destruct (Hstored _ _ Hj) as [m' [Hm' Hlive']].
    rewrite lookup_alter. case_decide as Heq.
    + subst j. rewrite Hm'. exists (f m'). split; [done|]. by apply Hflive.
    + by exists m'.
  - intros j m'. rewrite lookup_alter. case_decide as Heq.
    + subst j. destruct (heap this !! instruction) as [m|] eqn:Hm; [|done].
      intros [= <-]. rewrite Hfuri. destruct (Hheap _ _ Hm) as [Hret|Hin]; auto.
    + apply Hheap.
Qed.

(** What the teardown of a stored handle does, whoever starts it. *)
Lemma dispose_stored (this : Collection) (key : string) (instruction : nat) :
  wf this -> (key, instruction) ∈ attachments this ->
  exec (dispose instruction) this =
  BuildCollection (store_delete key (attachments this))
    (alter mark_disposed instruction (heap this))
    (log this ++ [DisposeCalled instruction; DeleteAndLeak key; UpdateFired;
                  RemoveFired instruction]).
Proof.
  intros [Hkeys Hstored Hheap] Hin.
  destruct (Hstored _ _ Hin) as [m [Hm [Hpath _ _ HonDispose _ _]]].
  unfold exec. rewrite dispose_eq, Hm, HonDispose. simpl. by rewrite Hpath.
Qed.

Lemma dispose_retired (this : Collection) (instruction : nat) (m : Model.t) :
  heap this !! instruction = Some m -> retired m ->
  exec (dispose instruction) this =
  BuildCollection (attachments this) (alter mark_disposed instruction (heap this))
    (log this ++ [DisposeCalled instruction]).
Proof.
  intros Hm [_ HonDispose _]. unfold exec. by rewrite dispose_eq, Hm, HonDispose.
Qed.

Lemma dispose_unknown (this : Collection) (instruction : nat) :
  heap this !! instruction = None ->
  exec (dispose instruction) this =
  BuildCollection (attachments this) (heap this) (log this ++ [DisposeCalled instruction]).
Proof. intros Hm. unfold exec. by rewrite dispose_eq, Hm. Qed.

Lemma wf_dispose (instruction : nat) (this : Collection) :
  wf this -> wf (exec (dispose instruction) this).
Proof.
  intros Hwf. destruct (heap this !! instruction) as [m|] eqn:Hm.
  - destruct (wf_heap _ Hwf _ _ Hm) as [Hret|Hin].
    + rewrite (dispose_retired _ _ _ Hm Hret). by eapply wf_alter_retired.
    + rewrite (dispose_stored _ _ _ Hwf Hin). by apply wf_forget.
  - rewrite dispose_unknown by done. destruct this. by eapply wf_log.
Qed.

(** What [remove] does to a key the collection holds. *)
Lemma remove_stored (uri : URI.t) (this : Collection) (instruction : nat) :
  wf this -> (URI.path uri, instruction) ∈ attachments this ->
  remove uri this =
  BuildCollection (store_delete (URI.path uri) (attachments this))
    (alter mark_disposed instruction (heap this))
    (log this ++ [DeleteAndDispose (URI.path uri); DisposeCalled instruction;
                  DeleteAndLeak (URI.path uri); UpdateFired;
                  RemoveFired instruction]).
Proof.
  intros Hwf Hin. pose proof Hwf as [Hkeys Hstored Hheap].
  destruct (Hstored _ _ Hin) as [m [Hm [Hpath _ _ HonDispose _ _]]].
  rewrite (remove_present _ _ instruction) by by apply store_get_unique.
  rewrite Hm, HonDispose. simpl. by rewrite Hpath, store_delete_idem.
Qed.

Lemma wf_remove (uri : URI.t) (this : Collection) : wf this -> wf (remove uri this).
Proof.
  intros Hwf. destruct (store_has (URI.path uri) (attachments this)) eqn:Hhas.
  - apply store_get_Some in Hhas as [instruction [_ Hin]].
    rewrite (remove_stored _ _ _ Hwf Hin). by apply wf_forget.
  - by rewrite remove_absent.
Qed.

Lemma model_update_eq (refs : list Ref.t) (instruction : nat) (this : Collection) :
  exec (model_update refs instruction) this =
  match heap this !! instruction with
  | Some m =>
      if Model.disposed m then this
      else BuildCollection
             (fold_left listener_store (Model.onUpdate m) (attachments this))
             (alter (with_references refs) instruction (heap this))
             (log this ++ concat (map listener_steps (Model.onUpdate m)))
  | None => this
  end.
Proof.
  unfold exec, model_update, read_model, modify_model, mbind, M_bind. simpl.
  destruct (heap this !! instruction) as [m|]; [|reflexivity].
  destruct (Model.disposed m); [reflexivity|]. by rewrite run_listeners_eq.
Qed.

Lemma wf_model_update (refs : list Ref.t) (instruction : nat) (this : Collection) :
  wf this -> wf (exec (model_update refs instruction) this).
Proof.
  intros Hwf. rewrite model_update_eq.
  destruct (heap this !! instruction) as [m|] eqn:Hm; [|done].
  destruct (Model.disposed m) eqn:Hdisposed; [done|].
  destruct (wf_heap _ Hwf _ _ Hm) as [[_ _ Hret]|Hin]; [congruence|].
  destruct (wf_stored _ Hwf _ _ Hin) as [m' [Hm' [_ _ HonUpdate _ _ _]]].
  assert (m' = m) as -> by congruence. rewrite HonUpdate. simpl.
  apply wf_alter_live; [done| | |done].
  - by intros m' [? ? ?].
  - by intros key m' [? ? ? ? ? ?].
Qed.

Lemma wf_model_settle (outcome : PromiseState) (instruction : nat) (this : Collection) :
  wf this -> wf (exec (model_settle outcome instruction) this).
Proof.
  intros Hwf. unfold exec, model_settle, modify_model. simpl.
  apply wf_alter_live; [done| | |].
  - intros m [? ? ?]. unfold with_outcome. by destruct (Model.allSettled m).
  - intros key m [? ? ? ? ? ?]. unfold with_outcome. by destruct (Model.allSettled m).
  - intros m. unfold with_outcome. by destruct (Model.allSettled m).
Qed.

Lemma wf_step (this this' : Collection) : step this this' -> wf this -> wf this'.
Proof.
  destruct 1; intros Hwf.
  - by apply wf_add.
  - by apply wf_remove.
  - by apply wf_dispose.
  - by apply wf_model_update.
  - by apply wf_model_settle.
Qed.

Lemma wf_steps (this this' : Collection) : rtc step this this' -> wf this -> wf this'.
Proof. induction 1 as [|this mid this' Hstep _ IH]; [done|]. eauto using wf_step. Qed.

(** Every state the system can reach from a new collection satisfies the
    invariant: keys are unique, every stored handle is live, wired and
    resolved once, every other model is disposed and has no listener. *)
Lemma reachable_wf (this : Collection) : reachable this -> wf this.
Proof. intros Hreach. eapply wf_steps; [exact Hreach | apply wf_create]. Qed.

(** Objects are never deallocated. *)
Lemma heap_add (uri : URI.t) (this : Collection) (instruction : nat) (m : Model.t) :
  heap this !! instruction = Some m ->
  heap (exec (add uri) this) !! instruction = Some m.
Proof.
  intros Hm. unfold exec.
  destruct (store_has (URI.path uri) (attachments this)) eqn:Hhas.
  - by rewrite add_present.
  - rewrite add_absent by done. simpl. rewrite lookup_insert_ne; [done|].
    intros Heq. pose proof (fresh_address this). congruence.
Qed.

Lemma step_allocated (this this' : Collection) (instruction : nat) :
  step this this' ->
  is_Some (heap this !! instruction) -> is_Some (heap this' !! instruction).
Proof.
  destruct 1 as [uri this|uri this|j this|refs j this|outcome j this]; intros [m Hm].
  - exists m. by apply heap_add.
  - destruct (store_has (URI.path uri) (attachments this)) eqn:Hhas.
    + apply store_get_Some in Hhas as [j [Hget _]].
      rewrite (remove_present _ _ _ Hget). simpl.
      apply lookup_alter_is_Some. eauto.
    + rewrite remove_absent by done. eauto.
  - unfold exec. rewrite dispose_eq.
    destruct (heap this !! j); simpl; [apply lookup_alter_is_Some|]; eauto.
  - rewrite model_update_eq. destruct (heap this !! j) as [mj|]; [|eauto].
    destruct (Model.disposed mj); simpl; [|apply lookup_alter_is_Some]; eauto.
  - unfold exec, model_settle, modify_model. simpl. apply lookup_alter_is_Some. eauto.
Qed.

Lemma steps_allocated (this this' : Collection) (instruction : nat) :
  rtc step this this' ->
  is_Some (heap this !! instruction) -> is_Some (heap this' !! instruction).
Proof. induction 1; eauto using step_allocated. Qed.

(** ** Teardown started by the handle *)

(** C4.  The callback [add] subscribes to the disposal signal of a handle
    drops the entry of the handle's key from the map with [deleteAndLeak]
    (no model is disposed by it: the heap is unchanged), then fires the
    update event, then fires the removed event with the handle.  Hence when
    a stored handle disposes itself, its [dispose] is entered once, the
    three steps of the callback follow, and that is all; a later [dispose]
    of the same handle finds no listener and fires nothing, and a later
    [remove] of its key finds nothing to dispose. *)
Theorem dispose_callback_forgets :
  (forall (uri : URI.t) (instruction : nat) (this : Collection),
      run_listener (DisposeCallback uri instruction) this =
      (tt, BuildCollection (store_delete (URI.path uri) (attachments this))
             (heap this)
             (log this ++ [DeleteAndLeak (URI.path uri); UpdateFired;
                           RemoveFired instruction])))
  /\ (forall (this : Collection) (key : string) (instruction : nat),
        wf this -> (key, instruction) ∈ attachments this ->
        let torn := exec (dispose instruction) this in
        log torn = log this ++ [DisposeCalled instruction; DeleteAndLeak key;
                                UpdateFired; RemoveFired instruction]
        /\ attachments torn = store_delete key (attachments this)
        /\ heap torn = alter mark_disposed instruction (heap this)
        /\ exec (dispose instruction) torn =
             BuildCollection (attachments torn) (heap torn)
               (log torn ++ [DisposeCalled instruction])
        /\ (forall uri : URI.t, URI.path uri = key -> remove uri torn = torn)).
Proof.
  split.
  - intros uri instruction this. apply run_listener_eq.
  - intros this key instruction Hwf Hin torn.
    pose proof (dispose_stored _ _ _ Hwf Hin) as Htorn. fold torn in Htorn.
    rewrite Htorn. simpl. split; [done|]. split; [done|]. split; [done|]. split.
    + destruct (wf_stored _ Hwf _ _ Hin) as [m [Hm _]].
      erewrite dispose_retired; simpl.
      * f_equal. rewrite alter_alter_eq. by apply alter_ext.
      * rewrite lookup_alter_eq, Hm. reflexivity.
      * by split.
    + intros uri <-. apply remove_absent. simpl. apply store_has_delete.
Qed.

(** ** [allSettled] *)

Lemma Promise_allSettled_Fulfilled {A : Type} (state : A -> PromiseState) (ps : list A) :
  Promise_allSettled (map state ps) = Fulfilled <->
  forall p, p ∈ ps -> state p <> Pending.
Proof.
  unfold Promise_allSettled. induction ps as [|p ps IH]; simpl.
  - split; [|done]. intros _ p Hp. by apply elem_of_nil in Hp.
  - destruct (state p) eqn:Hstate; simpl.
    + split; [done|]. intros Hall. exfalso. apply (Hall p); [apply list_elem_of_here|done].
    + rewrite IH. split.
      * intros Hall q [->|Hq]%elem_of_cons; [congruence | by apply Hall].
      * intros Hall q Hq. apply Hall. by apply list_elem_of_further.
    + rewrite IH. split.
      * intros Hall q [->|Hq]%elem_of_cons; [congruence | by apply Hall].
      * intros Hall q Hq. apply Hall. by apply list_elem_of_further.
Qed.

Lemma Promise_allSettled_not_Rejected (inputs : list PromiseState) :
  Promise_allSettled inputs <> Rejected.
Proof. unfold Promise_allSettled. by destruct (forallb _ _). Qed.

Lemma allSettled_result_frame (awaited : list PromiseRef) (now now' : Collection) :
  (forall p, p ∈ awaited -> promise_state now' p = promise_state now p) ->
  allSettled_result awaited now' = allSettled_result awaited now.
Proof.
  intros Hsame. unfold allSettled_result.
  replace (map (promise_state now') awaited) with (map (promise_state now) awaited);
    [done|].
  apply map_ext_in. intros p Hp%list_elem_of_In. symmetry. by apply Hsame.
Qed.

(** C6.  [allSettled()] waits on the settle promises of exactly the handles
    the map holds when it is called.  The promise it returns is never
    rejected, whatever the state of the awaited promises, rejected ones
    included; it is fulfilled exactly when none of the awaited promises is
    pending any more.  A handle added after the call is not waited on: the
    promise reads the same before and after such an [add]. *)
Theorem allSettled_snapshot (this : Collection) :
  let awaited := allSettled this in
  awaited = map (fun entry => SettlePromise entry.2) (attachments this)
  /\ (forall now : Collection, allSettled_result awaited now <> Rejected)
  /\ (forall now : Collection,
        allSettled_result awaited now = Fulfilled <->
        forall p, p ∈ awaited -> promise_state now p <> Pending)
  /\ (forall (now : Collection) (uri : URI.t),
        wf this -> rtc step this now ->
        allSettled_result awaited (exec (add uri) now) = allSettled_result awaited now).
Proof.
  intros awaited. split; [|split; [|split]].
  - unfold awaited, allSettled. by rewrite map_map.
  - intros now. unfold allSettled_result.
    pose proof (Promise_allSettled_not_Rejected (map (promise_state now) awaited)).
    by destruct (Promise_allSettled _).
  - intros now. rewrite <- Promise_allSettled_Fulfilled. unfold allSettled_result.
    by destruct (Promise_allSettled _).
  - intros now uri Hwf Hsteps. apply allSettled_result_frame.
    intros [instruction] Hp. unfold awaited, allSettled in Hp.
    rewrite map_map in Hp. apply list_elem_of_fmap in Hp as [[key j] [[= ->] Hin]].
    destruct (wf_stored _ Hwf _ _ Hin) as [m [Hm _]].
    destruct (steps_allocated _ _ j Hsteps) as [m' Hm']; [eauto|].
    simpl. by rewrite (heap_add _ _ _ _ Hm'), Hm'.
Qed.

(** ** [add], in full *)

Lemma store_get_added (key : string) (instruction : nat) (store : list (string * nat)) :
  store_has key store = false ->
  store_get key (store ++ [(key, instruction)]) = Some instruction.
Proof.
  unfold store_get. induction store as [|e store IH].
  - intros _. simpl. unfold key_is. simpl. by rewrite String.eqb_refl.
  - rewrite store_has_cons. intros [He Hrest]%orb_false_iff. simpl. rewrite He.
    by apply IH.
Qed.

Lemma stored_model_in_values (this : Collection) (key : string) (instruction : nat)
    (m : Model.t) :
  (key, instruction) ∈ attachments this ->
  heap this !! instruction = Some m ->
  m ∈ values this.
Proof.
  intros Hin Hm. unfold values. apply list_elem_of_omap. by exists (key, instruction).
Qed.

(** C2.  Membership goes by the path of the URI alone.  On a new collection,
    for every URI [u], [add u] answers [false], the [add u] that follows
    answers [true] and changes nothing, and one handle is held under the key
    of [u]: the map is the one entry for that key, and the address it holds
    is that of the model [add] constructed, wired and resolved, which is the
    only live handle.  In any state, for URIs [u1], [u2] with the same path
    (they may differ in scheme and authority, or be equal): when the key is
    not yet held, [add u1] answers [false] and leaves the map with one more
    entry, for that key, at the address of the newly constructed model; the
    [add u2] that follows answers [true] and adds nothing; afterwards
    exactly one handle is held under the key, and in a well-formed
    collection it is a live model of the heap, stored under the path of its
    own URI. *)
Theorem add_keyed_by_path :
  (forall u : URI.t,
      let instruction := fresh (dom (heap create)) in
      let first := add u create in
      let second := add u first.2 in
      first.1 = false
      /\ second = (true, first.2)
      /\ handles_under (URI.path u) second.2 = 1
      /\ attachments second.2 = [(URI.path u, instruction)]
      /\ heap second.2 = <[instruction := added_model u instruction]> ∅
      /\ values second.2 = [added_model u instruction])
  /\ (forall (this : Collection) (u1 u2 : URI.t),
        URI.path u1 = URI.path u2 ->
        let instruction := fresh (dom (heap this)) in
        let once := exec (add u1) this in
        let twice := exec (add u2) once in
        (store_has (URI.path u1) (attachments this) = false ->
           (add u1 this).1 = false
           /\ handles_under (URI.path u1) twice = 1
           /\ attachments twice = attachments this ++ [(URI.path u1, instruction)]
           /\ heap twice = <[instruction := added_model u1 instruction]> (heap this)
           /\ store_get (URI.path u2) (attachments twice) = Some instruction
           /\ added_model u1 instruction ∈ values twice)
        /\ add u2 once = (true, once)
        /\ (NoDup (attachments this).*1 -> handles_under (URI.path u1) twice = 1)
        /\ (wf this ->
            exists stored m,
              store_get (URI.path u2) (attachments twice) = Some stored
              /\ heap twice !! stored = Some m
              /\ live_under (URI.path u1) stored m
              /\ m ∈ values twice)).
Proof.
  assert (Hgeneral : forall (this : Collection) (u1 u2 : URI.t),
    URI.path u1 = URI.path u2 ->
    let instruction := fresh (dom (heap this)) in
    let once := exec (add u1) this in
    let twice := exec (add u2) once in
    (store_has (URI.path u1) (attachments this) = false ->
       (add u1 this).1 = false
       /\ handles_under (URI.path u1) twice = 1
       /\ attachments twice = attachments this ++ [(URI.path u1, instruction)]
       /\ heap twice = <[instruction := added_model u1 instruction]> (heap this)
       /\ store_get (URI.path u2) (attachments twice) = Some instruction
       /\ added_model u1 instruction ∈ values twice)
    /\ add u2 once = (true, once)
    /\ (NoDup (attachments this).*1 -> handles_under (URI.path u1) twice = 1)
    /\ (wf this ->
        exists stored m,
          store_get (URI.path u2) (attachments twice) = Some stored
          /\ heap twice !! stored = Some m
          /\ live_under (URI.path u1) stored m
          /\ m ∈ values twice)).
  { intros this u1 u2 Hpath instruction once twice.
    destruct (add_same_path this u1 u2 Hpath) as (Hfree & Hsecond & Hone).
    fold once in Hsecond. fold once twice in Hfree, Hone.
    assert (Htwice : twice = once) by (unfold twice, exec; by rewrite Hsecond).
    split; [|split; [done|split; [done|]]].
    - intros Hhas. destruct (Hfree Hhas) as [Hfirst Hcount].
      split; [done|]. split; [done|].
      rewrite Htwice, <- Hpath. unfold once, exec. rewrite add_absent by done. simpl.
      split; [done|]. split; [done|]. split; [by apply store_get_added|].
      eapply (stored_model_in_values _ (URI.path u1) (fresh (dom (heap this)))); simpl.
      + apply elem_of_app. right. apply list_elem_of_here.
      + apply lookup_insert_eq.
    - intros Hwf. rewrite Htwice, <- Hpath.
      assert (Hwf' : wf once) by by apply wf_add.
      destruct (store_get_Some (URI.path u1) (attachments once)) as [stored [Hget Hin]];
        [apply has_after_add|].
      destruct (wf_stored _ Hwf' _ _ Hin) as [m [Hm Hlive]].
      exists stored, m. split; [done|]. split; [done|]. split; [done|].
      by eapply stored_model_in_values. }
  split; [|exact Hgeneral].
  intros u instruction first second.
  destruct (Hgeneral create u u eq_refl) as (Hfree & Hsecond & _).
  destruct (Hfree eq_refl) as (Hfirst & Hone & Hstore & Hheap & _ & _).
  assert (Hstate : second.2 = exec (add u) (exec (add u) create)) by reflexivity.
  rewrite Hstate. split; [done|]. split; [done|]. split; [done|].
  split; [done|]. split; [done|].
  unfold values. rewrite Hstore, Hheap. simpl. by rewrite lookup_insert_eq.
Qed.

(** C5.  A call [add uri] that finds the key free is, step by step and in
    this order: the handle is constructed; the update subscription is wired
    on it; the disposal subscription is wired on it; the handle is stored
    under its key; its [resolve] is called; the added event fires with the
    handle; the update event fires.  Each step is performed on the state the
    previous one left: the listeners are on the model before it enters the
    map, the model enters the map before it is resolved, and both events
    fire on the final map and heap.  The call answers [false]. *)
Theorem add_step_order (uri : URI.t) (this : Collection) :
  store_has (URI.path uri) (attachments this) = false ->
  let instruction := fresh (dom (heap this)) in
  let key := URI.path uri in
  let callback := DisposeCallback uri instruction in
  let constructed := exec (createInstance uri) this in
  let update_wired := exec (onUpdate UpdateFire instruction) constructed in
  let dispose_wired := exec (onDispose callback instruction) update_wired in
  let stored := exec (set key instruction) dispose_wired in
  let resolving := exec (resolve instruction) stored in
  let added_fired := exec (record (AddFired instruction)) resolving in
  let update_fired := exec (record UpdateFired) added_fired in
  add uri this = (false, update_fired)
  /\ constructed =
       BuildCollection (attachments this)
         (<[instruction := new_model uri]> (heap this))
         (log this ++ [Constructed instruction uri])
  /\ update_wired =
       BuildCollection (attachments this)
         (<[instruction := add_onUpdate UpdateFire (new_model uri)]> (heap this))
         (log constructed ++ [UpdateWired instruction])
  /\ dispose_wired =
       BuildCollection (attachments this)
         (<[instruction :=
              add_onDispose callback (add_onUpdate UpdateFire (new_model uri))]>
            (heap this))
         (log update_wired ++ [DisposeWired instruction])
  /\ stored =
       BuildCollection (attachments this ++ [(key, instruction)])
         (heap dispose_wired)
         (log dispose_wired ++ [Stored key instruction])
  /\ resolving =
       BuildCollection (attachments stored)
         (<[instruction := added_model uri instruction]> (heap this))
         (log stored ++ [ResolveCalled instruction])
  /\ added_fired =
       BuildCollection (attachments resolving) (heap resolving)
         (log resolving ++ [AddFired instruction])
  /\ update_fired =
       BuildCollection (attachments this ++ [(key, instruction)])
         (<[instruction := added_model uri instruction]> (heap this))
         (log this ++ [Constructed instruction uri;
                       UpdateWired instruction;
                       DisposeWired instruction;
                       Stored key instruction;
                       ResolveCalled instruction;
                       AddFired instruction;
                       UpdateFired])
  /\ log (exec (add uri) this) =
       log this ++ [Constructed instruction uri;
                    UpdateWired instruction;
                    DisposeWired instruction;
                    Stored key instruction;
                    ResolveCalled instruction;
                    AddFired instruction;
                    UpdateFired].
Proof.
  intros Hhas instruction key callback constructed update_wired dispose_wired stored
    resolving added_fired update_fired.
  assert (Hconstructed : constructed =
            BuildCollection (attachments this)
              (<[instruction := new_model uri]> (heap this))
              (log this ++ [Constructed instruction uri])) by reflexivity.
  assert (Hupdate : update_wired =
            BuildCollection (attachments this)
              (<[instruction := add_onUpdate UpdateFire (new_model uri)]> (heap this))
              (log constructed ++ [UpdateWired instruction])).
  { unfold update_wired. rewrite Hconstructed.
    unfold exec, onUpdate, modify_model, record, mbind, M_bind, mret, M_ret. simpl.
    by rewrite alter_insert_eq. }
  assert (Hdispose : dispose_wired =
            BuildCollection (attachments this)
              (<[instruction :=
                   add_onDispose callback (add_onUpdate UpdateFire (new_model uri))]>
                 (heap this))
              (log update_wired ++ [DisposeWired instruction])).
  { unfold dispose_wired. rewrite Hupdate.
    unfold exec, onDispose, modify_model, record, mbind, M_bind, mret, M_ret. simpl.
    by rewrite alter_insert_eq. }
  assert (Hstored : stored =
            BuildCollection (attachments this ++ [(key, instruction)])
              (heap dispose_wired)
              (log dispose_wired ++ [Stored key instruction])).
  { unfold stored, key. rewrite Hdispose.
    unfold exec, set, get, modify_store, record, mbind, M_bind, mret, M_ret. simpl.
    rewrite (store_get_None _ _ Hhas). simpl. by rewrite store_set_absent. }
  assert (Hresolving : resolving =
            BuildCollection (attachments stored)
              (<[instruction := added_model uri instruction]> (heap this))
              (log stored ++ [ResolveCalled instruction])).
  { unfold resolving. rewrite Hstored, Hdispose.
    unfold exec, resolve, modify_model, record, mbind, M_bind, mret, M_ret. simpl.
    by rewrite alter_insert_eq. }
  assert (Hadded : added_fired =
            BuildCollection (attachments resolving) (heap resolving)
              (log resolving ++ [AddFired instruction])) by reflexivity.
  assert (Hfinal : add uri this = (false, update_fired)).
  { rewrite add_absent by done.
    unfold update_fired. rewrite Hadded, Hresolving, Hstored, Hdispose, Hupdate,
      Hconstructed. unfold exec, record. simpl. by rewrite <- !app_assoc. }
  split; [exact Hfinal|]. split; [exact Hconstructed|]. split; [exact Hupdate|].
  split; [exact Hdispose|]. split; [exact Hstored|]. split; [exact Hresolving|].
  split; [exact Hadded|].
  pose proof (add_absent uri this Hhas) as Hall. fold instruction key in Hall.
  rewrite Hfinal in Hall. pose proof (f_equal snd Hall) as Hstate. simpl in Hstate.
  split; [exact Hstate|].
  unfold exec. rewrite Hfinal. change ((false, update_fired).2) with update_fired.
  by rewrite Hstate.
Qed.

(** After [add] then [remove] of a URI whose key was free, the handle was
    disposed once, the removed event fired once with it, and the key is
    free again. *)
Lemma add_then_remove (uri : URI.t) (this : Collection) :
  wf this ->
  store_has (URI.path uri) (attachments this) = false ->
  let instruction := fresh (dom (heap this)) in
  let added := exec (add uri) this in
  log (remove uri added) =
    log added ++ [DeleteAndDispose (URI.path uri); DisposeCalled instruction;
                  DeleteAndLeak (URI.path uri); UpdateFired; RemoveFired instruction]
  /\ attachments (remove uri added) = attachments this
  /\ (heap (remove uri added) !! instruction)
     = Some (mark_disposed (added_model uri instruction)).
Proof.
  intros Hwf Hhas instruction added.
  assert (Hin : (URI.path uri, instruction) ∈ attachments added).
  { unfold added, exec. rewrite add_absent by done. simpl.
    apply elem_of_app. right. apply list_elem_of_here. }
  rewrite (remove_stored uri added instruction) by (by try apply wf_add).
  simpl. split; [done|]. unfold added, exec. rewrite add_absent by done. simpl.
  split.
  - unfold store_delete. rewrite List.filter_app. simpl. unfold key_is at 2. simpl.
    rewrite String.eqb_refl. simpl. rewrite app_nil_r.
    by apply store_delete_absent.
  - by rewrite lookup_alter_eq, lookup_insert_eq.
Qed.

(** In a well-formed collection the view [values] drops nothing: it lists
    the model of every stored handle, in the order of the map. *)
Lemma values_stored (this : Collection) :
  wf this ->
  Forall2 (fun entry m => heap this !! entry.2 = Some m) (attachments this) (values this).
Proof.
  intros [_ Hstored _]. unfold values.
  induction (attachments this) as [|[key instruction] store IH]; simpl; [constructor|].
  destruct (Hstored key instruction) as [m [Hm _]]; [apply list_elem_of_here|].
  simpl. rewrite Hm. constructor; [done|].
  apply IH. intros k j Hj. apply Hstored. by apply list_elem_of_further.
Qed.

End CollectionProperties.

(** ** The scenarios of the specification, run *)

Example chatAttachments_children_then_root :
  chatAttachments (uriOps := sampleUriOps) one_resolved =
  [toChatVariable (uriOps := sampleUriOps) (Ref.Build c1_prompt true) false;
   toChatVariable (uriOps := sampleUriOps) (Ref.Build c2_md false) false;
   toChatVariable (uriOps := sampleUriOps) (Ref.Build a_prompt true) true].
Proof. vm_compute. reflexivity. Qed.

Example chatAttachments_two_attached :
  chatAttachments (uriOps := sampleUriOps) two_attached =
  [toChatVariable (uriOps := sampleUriOps) (Ref.Build a_prompt true) true;
   toChatVariable (uriOps := sampleUriOps) (Ref.Build x_md false) false;
   toChatVariable (uriOps := sampleUriOps) (Ref.Build b_prompt true) true].
Proof. vm_compute. reflexivity. Qed.

Example chatAttachments_ids :
  map Entry.id (chatAttachments (uriOps := sampleUriOps) one_resolved) =
  ["vscode.prompt.instructions__file:///w/c1.prompt.md";
   "file:///w/c2.md";
   "vscode.prompt.instructions.root__file:///w/a.prompt.md"].
Proof. vm_compute. reflexivity. Qed.

Example add_twice_on_new_collection :
  let first := add (parserOps := sampleParserOps) a_prompt create in
  let second := add (parserOps := sampleParserOps) a_prompt first.2 in
  first.1 = false /\ second.1 = true /\ attachments second.2 = [("/w/a.prompt.md", 0)].
Proof. vm_compute. auto. Qed.

Example add_same_path_other_scheme :
  (add (parserOps := sampleParserOps) a_untitled one_attached).1 = true.
Proof. vm_compute. reflexivity. Qed.

Example remove_logs :
  log (remove a_prompt one_attached) =
  log one_attached ++ [DeleteAndDispose "/w/a.prompt.md"; DisposeCalled 0;
                       DeleteAndLeak "/w/a.prompt.md"; UpdateFired; RemoveFired 0].
Proof. vm_compute. reflexivity. Qed.

Example image_entry_is_no_prompt_file : isPromptFileChatVariable image_entry = false.
Proof. reflexivity. Qed.

(** ** The theorems with hypotheses, applied *)

Lemma chatAttachments_order_witness :
  values two_attached = [model_a] ++ model_b :: []
  /\ chatAttachments (uriOps := sampleUriOps) two_attached =
       chatAttachments_spec (uriOps := sampleUriOps) [model_a]
       ++ map (fun node => toChatVariable (uriOps := sampleUriOps) node false)
              (Parser.allValidReferences (Model.reference model_b))
       ++ toChatVariable (uriOps := sampleUriOps)
            (Ref.Build (Parser.uri (Model.reference model_b)) true) true
          :: chatAttachments_spec (uriOps := sampleUriOps) [].
Proof.
  split.
  - vm_compute. reflexivity.
  - apply (proj2 (chatAttachments_order (uriOps := sampleUriOps) two_attached)
             [model_a] [] model_b).
    vm_compute. reflexivity.
Defined.

Lemma add_keyed_by_path_witness :
  URI.path a_prompt = URI.path a_untitled
  /\ store_has (URI.path a_prompt) (attachments create) = false
  /\ NoDup (attachments create).*1
  /\ wf create
  /\ (add (parserOps := sampleParserOps) a_prompt create).1 = false
  /\ add (parserOps := sampleParserOps) a_untitled one_attached = (true, one_attached)
  /\ handles_under (URI.path a_prompt)
       (exec (add (parserOps := sampleParserOps) a_untitled) one_attached) = 1
  /\ heap (exec (add (parserOps := sampleParserOps) a_untitled) one_attached)
     = <[fresh (dom (heap create)) :=
           added_model (parserOps := sampleParserOps) a_prompt
             (fresh (dom (heap create)))]> (heap create)
  /\ exists stored m,
       store_get (URI.path a_untitled)
         (attachments (exec (add (parserOps := sampleParserOps) a_untitled) one_attached))
       = Some stored
       /\ heap (exec (add (parserOps := sampleParserOps) a_untitled) one_attached)
          !! stored = Some m
       /\ live_under (URI.path a_prompt) stored m
       /\ m ∈ values (exec (add (parserOps := sampleParserOps) a_untitled) one_attached).
Proof.
  destruct (proj2 (add_keyed_by_path (parserOps := sampleParserOps))
              create a_prompt a_untitled eq_refl) as (Hfree & Hsecond & Hone & Hlive).
  destruct (Hfree eq_refl) as (Hfirst & _ & _ & Hheap & _ & _).
  split; [reflexivity|]. split; [reflexivity|]. split; [apply NoDup_nil_2|].
  split; [apply wf_create|]. split; [exact Hfirst|]. split; [exact Hsecond|].
  split; [apply Hone; apply NoDup_nil_2|]. split; [exact Hheap|].
  apply Hlive. apply wf_create.
Defined.

Lemma dispose_callback_forgets_witness :
  wf one_attached
  /\ ("/w/a.prompt.md", 0) ∈ attachments one_attached
  /\ log (exec (dispose 0) one_attached) =
       log one_attached ++ [DisposeCalled 0; DeleteAndLeak "/w/a.prompt.md";
                            UpdateFired; RemoveFired 0].
Proof.
  assert (Hwf : wf one_attached) by apply wf_add, wf_create.
  assert (Hin : ("/w/a.prompt.md", 0) ∈ attachments one_attached).
  { apply list_elem_of_In. vm_compute. left. reflexivity. }
  split; [exact Hwf|]. split; [exact Hin|].
  apply (proj2 dispose_callback_forgets
           one_attached "/w/a.prompt.md" 0 Hwf Hin).
Defined.

Lemma add_step_order_witness :
  store_has (URI.path a_prompt) (attachments create) = false
  /\ add (parserOps := sampleParserOps) a_prompt create
     = (false,
        exec (record UpdateFired)
          (exec (record (AddFired (fresh (dom (heap create)))))
             (exec (resolve (fresh (dom (heap create))))
                (exec (set (URI.path a_prompt) (fresh (dom (heap create))))
                   (exec (onDispose
                            (DisposeCallback a_prompt (fresh (dom (heap create))))
                            (fresh (dom (heap create))))
                      (exec (onUpdate UpdateFire (fresh (dom (heap create))))
                         (exec (createInstance (parserOps := sampleParserOps) a_prompt)
                            create)))))))
  /\ log (exec (add (parserOps := sampleParserOps) a_prompt) create) =
       log create ++ [Constructed (fresh (dom (heap create))) a_prompt;
                      UpdateWired (fresh (dom (heap create)));
                      DisposeWired (fresh (dom (heap create)));
                      Stored (URI.path a_prompt) (fresh (dom (heap create)));
                      ResolveCalled (fresh (dom (heap create)));
                      AddFired (fresh (dom (heap create)));
                      UpdateFired].
Proof.
  destruct (add_step_order (parserOps := sampleParserOps) a_prompt create eq_refl)
    as (Hadd & _ & _ & _ & _ & _ & _ & _ & Hlog).
  split; [reflexivity|]. split; [exact Hadd | exact Hlog].
Defined.

Lemma allSettled_snapshot_witness :
  wf one_attached
  /\ rtc (step (parserOps := sampleParserOps)) one_attached
       (exec (model_settle Rejected 0) one_attached)
  /\ allSettled_result (allSettled one_attached)
       (exec (add (parserOps := sampleParserOps) b_prompt)
          (exec (model_settle Rejected 0) one_attached))
     = allSettled_result (allSettled one_attached)
         (exec (model_settle Rejected 0) one_attached).
Proof.
  assert (Hwf : wf one_attached) by apply wf_add, wf_create.
  assert (Hlater : rtc (step (parserOps := sampleParserOps)) one_attached
                     (exec (model_settle Rejected 0) one_attached)).
  { apply rtc_once. apply step_settle. }
  split; [exact Hwf|]. split; [exact Hlater|].
  destruct (allSettled_snapshot (parserOps := sampleParserOps) one_attached)
    as (_ & _ & _ & Hadded).
  apply Hadded; assumption.
Defined.

Lemma createPromptVariableId_stable_and_distinct_witness :
  a_prompt = a_prompt /\ true = true
  /\ createPromptVariableId (uriOps := sampleUriOps) a_prompt true =
     createPromptVariableId (uriOps := sampleUriOps) a_prompt true.
Proof.
  split; [reflexivity|]. split; [reflexivity|].
  apply (proj1 (createPromptVariableId_stable_and_distinct (uriOps := sampleUriOps))
           a_prompt a_prompt true true); reflexivity.
Defined.

Lemma isPromptFileChatVariable_iff_witness :
  Entry.name file_entry = "file:" +:+ "foo.txt"
  /\ isPromptFileChatVariable file_entry = false.
Proof.
  split; [reflexivity|].
  apply (proj2 isPromptFileChatVariable_iff file_entry "foo.txt"). reflexivity.
Defined.

Lemma remove_absent_or_present_witness :
  store_has (URI.path a_prompt) (attachments create) = false
  /\ remove a_prompt create = create
  /\ store_has (URI.path a_prompt) (attachments one_attached) = true
  /\ exists instruction,
       store_get (URI.path a_prompt) (attachments one_attached) = Some instruction
       /\ store_has (URI.path a_prompt) (attachments (remove a_prompt one_attached)) = false
       /\ heap (remove a_prompt one_attached) =
            alter mark_disposed instruction (heap one_attached)
       /\ exists rest,
            log (remove a_prompt one_attached) =
              log one_attached ++ DeleteAndDispose (URI.path a_prompt)
                                   :: DisposeCalled instruction :: rest.
Proof.
  split; [reflexivity|].
  split; [apply (proj1 (remove_absent_or_present a_prompt create)); reflexivity|].
  split; [vm_compute; reflexivity|].
  apply (proj2 (remove_absent_or_present a_prompt one_attached)).
  vm_compute. reflexivity.
Defined.

(** * Further properties *)

(** ** Identifiers are decodable *)

Lemma append_cancel_l (p a b : string) : p +:+ a = p +:+ b -> a = b.
Proof.
  induction p as [|c p IH]; [done|]. rewrite !append_cons. intros [= Heq]. by apply IH.
Qed.

Section EncoderInjectivity.
Context {uriOps : UriOps}.

(** X1.  The identifier of a prompt file determines both the root flag and
    the string form of the URI it was made from: two identifiers are equal
    only if the flags are equal and the URIs print alike.  In particular a
    root identifier never equals a non-root identifier, of whatever URIs. *)
Theorem createPromptVariableId_inj (u u' : URI.t) (r r' : bool) :
  createPromptVariableId u r = createPromptVariableId u' r' ->
  r = r' /\ uriToString u = uriToString u'.
Proof.
  destruct r, r';
    rewrite ?createPromptVariableId_root, ?createPromptVariableId_child; intros Heq.
  - split; [done|]. by eapply append_cancel_l.
  - exfalso. revert Heq. simpl. discriminate.
  - exfalso. revert Heq. simpl. discriminate.
  - split; [done|]. by eapply append_cancel_l.
Qed.

(** X2.  Two calls of [toChatVariable] give the same entry exactly when the
    nodes have the same URI and the same prompt-file flag and, for prompt
    files, the same root flag: the root flag of a node that is not a prompt
    file leaves no trace in the entry, everything else can be read back. *)
Theorem toChatVariable_eq_iff (n n' : Ref.t) (b b' : bool) :
  toChatVariable n b = toChatVariable n' b' <->
  Ref.uri n = Ref.uri n'
  /\ Ref.isPromptFile n = Ref.isPromptFile n'
  /\ (Ref.isPromptFile n = true -> b = b').
Proof.
  destruct n as [u p], n' as [u' p']. simpl. split.
  - intros Heq.
    assert (Hu : u = u') by exact (f_equal Entry.value Heq).
    assert (Hp : p = p').
    { pose proof (f_equal Entry.modelDescription Heq) as Hd. simpl in Hd.
      by destruct p, p'. }
    subst u' p'. split; [done|]. split; [done|]. intros ->.
    pose proof (f_equal Entry.id Heq) as Hid. simpl in Hid.
    by apply createPromptVariableId_inj in Hid as [Hb _].
  - intros (-> & -> & Hb). destruct p'; [by rewrite Hb|reflexivity].
Qed.

End EncoderInjectivity.

Lemma createPromptVariableId_inj_witness :
  createPromptVariableId (uriOps := sampleUriOps) a_prompt true
  = createPromptVariableId (uriOps := sampleUriOps) a_prompt_query true
  /\ true = true
  /\ uriToString (UriOps := sampleUriOps) a_prompt
     = uriToString (UriOps := sampleUriOps) a_prompt_query.
Proof.
  assert (Hid : createPromptVariableId (uriOps := sampleUriOps) a_prompt true
                = createPromptVariableId (uriOps := sampleUriOps) a_prompt_query true)
    by reflexivity.
  split; [exact Hid|].
  exact (createPromptVariableId_inj (uriOps := sampleUriOps)
           a_prompt a_prompt_query true true Hid).
Defined.

Lemma toChatVariable_eq_iff_witness :
  Ref.uri (Ref.Build c2_md false) = Ref.uri (Ref.Build c2_md false)
  /\ toChatVariable (uriOps := sampleUriOps) (Ref.Build c2_md false) true
     = toChatVariable (uriOps := sampleUriOps) (Ref.Build c2_md false) false.
Proof.
  split; [reflexivity|].
  apply (proj2 (toChatVariable_eq_iff (uriOps := sampleUriOps)
                  (Ref.Build c2_md false) (Ref.Build c2_md false) true false)).
  split; [reflexivity|]. split; [reflexivity|]. simpl. discriminate.
Defined.

(** ** The views, after [add] and [remove] *)

Section ViewProperties.
Context {uriOps : UriOps} {parserOps : ParserOps} {handleOps : HandleOps}.

Lemma chatAttachments_values (this : Collection) :
  chatAttachments this = chatAttachments_spec (values this).
Proof. unfold chatAttachments. by rewrite chatAttachments_loop. Qed.

Lemma references_loop (handles : list Model.t) (result : list URI.t) :
  fold_left (fun result child => result ++ modelReferences child) handles result
  = result ++ concat (map modelReferences handles).
Proof.
  revert result. induction handles as [|m handles IH]; intros result; simpl.
  - by rewrite app_nil_r.
  - by rewrite IH, <- app_assoc.
Qed.

Lemma references_values (this : Collection) :
  references this = concat (map modelReferences (values this)).
Proof. unfold references. by rewrite references_loop. Qed.

Lemma lookup_all_ext (hp hp' : gmap nat Model.t) (store : list (string * nat)) :
  (forall e, e ∈ store -> hp' !! e.2 = hp !! e.2) ->
  omap (fun e => hp' !! e.2) store = omap (fun e => hp !! e.2) store.
Proof.
  induction store as [|e store IH]; intros Hsame; [done|].
  assert (Hrest : omap (fun e => hp' !! e.2) store = omap (fun e => hp !! e.2) store).
  { apply IH. intros e' He'. apply Hsame. by apply list_elem_of_further. }
  simpl. rewrite (Hsame e) by apply list_elem_of_here.
  destruct (hp !! e.2); [f_equal|]; exact Hrest.
Qed.

Lemma values_app (before after : list (string * nat)) (this : Collection) :
  values (with_store (before ++ after) this)
  = values (with_store before this) ++ values (with_store after this).
Proof. unfold values. simpl. apply omap_app. Qed.

Lemma values_with_store_self (this : Collection) :
  values (with_store (attachments this) this) = values this.
Proof. reflexivity. Qed.

Lemma values_add (uri : URI.t) (this : Collection) :
  wf this ->
  store_has (URI.path uri) (attachments this) = false ->
  values (exec (add uri) this)
  = values this ++ [added_model uri (fresh (dom (heap this)))].
Proof.
  intros Hwf Hhas. unfold exec. rewrite add_absent by done.
  unfold values. simpl. rewrite omap_app. f_equal.
  - apply lookup_all_ext. intros [key j] Hj. simpl.
    destruct (wf_stored _ Hwf _ _ Hj) as [m [Hm _]].
    rewrite lookup_insert_ne; [done|]. intros <-.
    pose proof (fresh_address this). congruence.
  - simpl. by rewrite lookup_insert_eq.
Qed.

Lemma stored_key_unique (this : Collection) (key key' : string) (instruction : nat) :
  wf this ->
  (key, instruction) ∈ attachments this -> (key', instruction) ∈ attachments this ->
  key = key'.
Proof.
  intros Hwf Ha Hb.
  destruct (wf_stored _ Hwf _ _ Ha) as [m [Hm [Hpath _ _ _ _ _]]].
  destruct (wf_stored _ Hwf _ _ Hb) as [m' [Hm' [Hpath' _ _ _ _ _]]].
  congruence.
Qed.

Lemma values_remove (uri : URI.t) (this : Collection) :
  wf this ->
  values (remove uri this)
  = values (with_store (store_delete (URI.path uri) (attachments this)) this).
Proof.
  intros Hwf. destruct (store_has (URI.path uri) (attachments this)) eqn:Hhas.
  - apply store_get_Some in Hhas as [instruction [_ Hin]].
    rewrite (remove_stored _ _ _ Hwf Hin). unfold values. simpl.
    apply lookup_all_ext. intros [key j] [Hj Hkey]%elem_of_store_delete. simpl in *.
    rewrite lookup_alter_ne; [done|]. intros <-. apply Hkey. symmetry.
    by eapply stored_key_unique.
  - rewrite remove_absent, store_delete_absent by done. by destruct this.
Qed.

Lemma store_delete_middle (key : string) (instruction : nat)
    (before after : list (string * nat)) :
  NoDup (before ++ (key, instruction) :: after).*1 ->
  store_delete key (before ++ (key, instruction) :: after) = before ++ after.
Proof.
  rewrite fmap_app, fmap_cons. simpl.
  intros (Hbefore & Hdisjoint & [Hkey Hafter]%NoDup_cons)%NoDup_app.
  unfold store_delete. rewrite List.filter_app. simpl.
  unfold key_is at 2. simpl. rewrite String.eqb_refl. simpl.
  f_equal; apply store_delete_absent, store_has_false; [|done].
  intros Hin. apply (Hdisjoint _ Hin). apply list_elem_of_here.
Qed.

Lemma isPromptFileChatVariable_node (n : Ref.t) (b : bool) :
  isPromptFileChatVariable (toChatVariable n b) = Ref.isPromptFile n.
Proof.
  unfold isPromptFileChatVariable, isChatRequestFileEntry.
  destruct n as [u [|]]; simpl.
  - apply (prefix_append "prompt:").
  - apply (prefix_file_name (basename u)).
Qed.

Lemma child_entries_prompt_files (refs : list Ref.t) :
  length (List.filter isPromptFileChatVariable
            (map (fun node => toChatVariable node false) refs))
  = length (List.filter Ref.isPromptFile refs).
Proof.
  induction refs as [|n refs IH]; simpl; [done|].
  rewrite isPromptFileChatVariable_node. destruct (Ref.isPromptFile n); simpl; by rewrite IH.
Qed.

Lemma child_entries_file_kind (refs : list Ref.t) :
  Forall (fun e => isChatRequestFileEntry e = true)
    (map (fun node => toChatVariable node false) refs).
Proof. induction refs as [|n refs IH]; simpl; by constructor. Qed.

(** X3.  Every entry of [chatAttachments] is a file entry.  The view has one
    entry per live handle plus one per child of each handle, and among them
    [isPromptFileChatVariable] picks out one per handle (its root, also when
    the root node is not flagged as a prompt file) plus one per child that
    is a prompt file. *)
Theorem chatAttachments_entries (this : Collection) :
  Forall (fun e => isChatRequestFileEntry e = true) (chatAttachments this)
  /\ length (chatAttachments this)
     = sum_list (map (fun m => S (all_children m)) (values this))
  /\ length (List.filter isPromptFileChatVariable (chatAttachments this))
     = sum_list (map (fun m => S (prompt_children m)) (values this)).
Proof.
  rewrite chatAttachments_values. unfold chatAttachments_spec.
  induction (values this) as [|m handles (IHkind & IHall & IHprompt)]; simpl.
  - split; [constructor | done].
  - split; [|split].
    + rewrite <- app_assoc. apply Forall_app. split; [apply child_entries_file_kind|].
      by constructor.
    + rewrite !length_app, IHall. unfold child_entries, all_children.
      rewrite length_map. simpl. lia.
    + rewrite !List.filter_app, !length_app, IHprompt. unfold child_entries, prompt_children.
      rewrite child_entries_prompt_files. simpl.
      rewrite <- root_entry_eq, isPromptFileChatVariable_node. simpl. lia.
Qed.

(** X4.  Adding a URI whose key is free puts exactly one entry at the end of
    [chatAttachments], the root entry of the new handle (nothing of it is
    resolved yet), and leaves the entries of the other handles as they
    were. *)
Theorem add_appends_root_entry (uri : URI.t) (this : Collection) :
  wf this ->
  store_has (URI.path uri) (attachments this) = false ->
  chatAttachments (exec (add uri) this)
  = chatAttachments this ++ [toChatVariable (Ref.Build uri true) true].
Proof.
  intros Hwf Hhas. rewrite !chatAttachments_values, values_add by done.
  by rewrite chatAttachments_spec_app.
Qed.

(** X5.  [add] never takes anything away, in any state: the steps it logs
    contain no disposal, no deletion and no removed event; the entries the
    map held stay where they were, a new one can only come last; and every
    model that existed is left untouched. *)
Theorem add_never_tears_down (uri : URI.t) (this : Collection) :
  (exists steps,
      log (exec (add uri) this) = log this ++ steps
      /\ Forall (fun s => is_teardown s = false) steps)
  /\ attachments this `prefix_of` attachments (exec (add uri) this)
  /\ (forall instruction m,
        heap this !! instruction = Some m ->
        heap (exec (add uri) this) !! instruction = Some m).
Proof.
  split; [|split].
  - unfold exec. destruct (store_has (URI.path uri) (attachments this)) eqn:Hhas.
    + rewrite add_present by done. exists []. by rewrite app_nil_r.
    + rewrite add_absent by done. simpl. eexists. split; [done|].
      repeat constructor.
  - unfold exec. destruct (store_has (URI.path uri) (attachments this)) eqn:Hhas.
    + by rewrite add_present.
    + rewrite add_absent by done. simpl. by apply prefix_app_r.
  - intros instruction m. apply heap_add.
Qed.

(** X6.  [remove] of a key the collection holds notifies once: the handle is
    disposed once through [deleteAndDispose], its disposal callback forgets
    the key and fires one update event and one removed event with the
    handle, and [remove] itself fires nothing more.  Only the removed handle
    changes in the heap. *)
Theorem remove_notifies_once (uri : URI.t) (this : Collection) :
  wf this ->
  store_has (URI.path uri) (attachments this) = true ->
  exists instruction,
    store_get (URI.path uri) (attachments this) = Some instruction
    /\ remove uri this =
       BuildCollection (store_delete (URI.path uri) (attachments this))
         (alter mark_disposed instruction (heap this))
         (log this ++ [DeleteAndDispose (URI.path uri); DisposeCalled instruction;
                       DeleteAndLeak (URI.path uri); UpdateFired;
                       RemoveFired instruction]).
Proof.
  intros Hwf [instruction [Hget Hin]]%store_get_Some. exists instruction.
  split; [done|]. by apply remove_stored.
Qed.

Lemma has_after_remove (uri : URI.t) (this : Collection) :
  store_has (URI.path uri) (attachments (remove uri this)) = false.
Proof.
  destruct (store_has (URI.path uri) (attachments this)) eqn:Hhas.
  - apply store_get_Some in Hhas as [instruction [Hget _]].
    rewrite (remove_present _ _ _ Hget). simpl. apply store_has_delete.
  - by rewrite remove_absent.
Qed.

(** X7.  [remove] is idempotent, in any state and whatever the handles do on
    disposal: a second [remove] of a URI with the same path, right after the
    first, changes nothing and fires nothing. *)
Theorem remove_idempotent (u u' : URI.t) (this : Collection) :
  URI.path u = URI.path u' ->
  remove u' (remove u this) = remove u this.
Proof. intros Hpath. apply remove_absent. rewrite <- Hpath. apply has_after_remove. Qed.

(** X8.  Removing a URI takes exactly the block of its handle out of both
    views.  If the map holds the key between the entries [before] and
    [after], then [chatAttachments] was the entries of [before], the
    children and root of the handle, the entries of [after]; after [remove]
    the map is [before ++ after], and [chatAttachments] and [references] are
    those of [before] followed by those of [after], unchanged and in the
    same order. *)
Theorem remove_drops_one_block (uri : URI.t) (this : Collection)
    (before after : list (string * nat)) (instruction : nat) :
  wf this ->
  attachments this = before ++ (URI.path uri, instruction) :: after ->
  exists m,
    heap this !! instruction = Some m
    /\ chatAttachments this
       = chatAttachments (with_store before this)
         ++ (child_entries m ++ [root_entry m])
         ++ chatAttachments (with_store after this)
    /\ attachments (remove uri this) = before ++ after
    /\ chatAttachments (remove uri this)
       = chatAttachments (with_store before this)
         ++ chatAttachments (with_store after this)
    /\ references (remove uri this)
       = references (with_store before this) ++ references (with_store after this).
Proof.
  intros Hwf Hstore.
  assert (Hin : (URI.path uri, instruction) ∈ attachments this).
  { rewrite Hstore. apply elem_of_app. right. apply list_elem_of_here. }
  destruct (wf_stored _ Hwf _ _ Hin) as [m [Hm _]]. exists m. split; [done|].
  assert (Hdelete : store_delete (URI.path uri) (attachments this) = before ++ after).
  { rewrite Hstore. apply store_delete_middle. rewrite <- Hstore. apply Hwf. }
  assert (Hvalues : values this
                    = values (with_store before this) ++ [m]
                      ++ values (with_store after this)).
  { rewrite <- values_with_store_self, Hstore.
    rewrite (values_app before). f_equal.
    unfold values, with_store. simpl. by rewrite Hm. }
  assert (Hremoved : values (remove uri this)
                     = values (with_store before this) ++ values (with_store after this)).
  { rewrite values_remove, Hdelete by done. apply values_app. }
  split; [|split; [|split]].
  - rewrite !chatAttachments_values, Hvalues, !chatAttachments_spec_app.
    do 2 f_equal. unfold chatAttachments_spec. simpl. by rewrite app_nil_r.
  - rewrite (remove_stored _ _ _ Hwf Hin). simpl. exact Hdelete.
  - by rewrite !chatAttachments_values, Hremoved, chatAttachments_spec_app.
  - by rewrite !references_values, Hremoved, map_app, concat_app.
Qed.

(** X9.  [add] then [remove] of a URI whose key was free is a round trip for
    everything a reader of the collection sees: the map, [chatAttachments]
    and [references] are as before the [add].  In between the handle was
    constructed, wired, stored and resolved, and disposed exactly once; one
    added event, one removed event and two update events fired. *)
Theorem add_remove_round_trip (uri : URI.t) (this : Collection) :
  wf this ->
  store_has (URI.path uri) (attachments this) = false ->
  let instruction := fresh (dom (heap this)) in
  let back := remove uri (exec (add uri) this) in
  attachments back = attachments this
  /\ chatAttachments back = chatAttachments this
  /\ references back = references this
  /\ log back =
       log this ++ [Constructed instruction uri; UpdateWired instruction;
                    DisposeWired instruction; Stored (URI.path uri) instruction;
                    ResolveCalled instruction; AddFired instruction; UpdateFired;
                    DeleteAndDispose (URI.path uri); DisposeCalled instruction;
                    DeleteAndLeak (URI.path uri); UpdateFired;
                    RemoveFired instruction].
Proof.
  intros Hwf Hhas instruction back.
  destruct (add_then_remove uri this Hwf Hhas) as (Hlog & Hstore & _).
  fold instruction in Hlog. fold back in Hlog, Hstore.
  assert (Hvalues : values back = values this).
  { unfold back. rewrite values_remove by by apply wf_add.
    unfold exec. rewrite add_absent by done. unfold with_store, values. simpl.
    unfold store_delete. rewrite List.filter_app. simpl. unfold key_is at 2. simpl.
    rewrite String.eqb_refl. simpl. rewrite app_nil_r.
    fold (store_delete (URI.path uri) (attachments this)).
    rewrite store_delete_absent by done.
    apply lookup_all_ext. intros [key j] Hj. simpl.
    destruct (wf_stored _ Hwf _ _ Hj) as [m [Hm _]].
    rewrite lookup_insert_ne; [done|]. intros <-.
    pose proof (fresh_address this). congruence. }
  split; [done|]. split; [|split].
  - by rewrite !chatAttachments_values, Hvalues.
  - by rewrite !references_values, Hvalues.
  - rewrite Hlog. unfold exec. rewrite add_absent by done. simpl.
    by rewrite <- app_assoc.
Qed.

Lemma NoDup_addresses (store : list (string * nat)) :
  NoDup store.*1 ->
  (forall key key' instruction,
      (key, instruction) ∈ store -> (key', instruction) ∈ store -> key = key') ->
  NoDup store.*2.
Proof.
  induction store as [|[k i] store IH]; simpl; [constructor|].
  intros [Hk Hkeys]%NoDup_cons Hinj. apply NoDup_cons. split.
  - intros [[k' i'] [Hi' Hin]]%list_elem_of_fmap. simpl in Hi'. subst i'.
    apply Hk. apply list_elem_of_fmap. exists (k', i). split; [|done]. simpl.
    apply (Hinj k k' i); [apply list_elem_of_here | by apply list_elem_of_further].
  - apply IH; [done|]. intros key key' j Hj Hj'.
    apply (Hinj key key' j); by apply list_elem_of_further.
Qed.

(** X10.  In every state reachable from a new collection by calls of [add]
    and [remove] and by what the handles do on their own, the map holds at
    most one handle per key and no handle under two keys, and every handle
    it holds is stored under the path of its own URI, has had [resolve]
    called exactly once, is not disposed, and carries exactly the two
    listeners [add] wired: the update forwarder and its own disposal
    callback. *)
Theorem reachable_handles_live (this : Collection) :
  reachable this ->
  NoDup (attachments this).*1
  /\ NoDup (attachments this).*2
  /\ (forall key instruction,
        (key, instruction) ∈ attachments this ->
        exists m,
          heap this !! instruction = Some m
          /\ URI.path (Model.uri m) = key
          /\ Model.resolveCalls m = 1
          /\ Model.disposed m = false
          /\ Model.onUpdate m = [UpdateFire]
          /\ Model.onDispose m = [DisposeCallback (Model.uri m) instruction]).
Proof.
  intros Hwf%reachable_wf. split; [apply Hwf|]. split.
  - apply NoDup_addresses; [apply Hwf|]. intros key key' j. by apply stored_key_unique.
  - intros key instruction Hin.
    destruct (wf_stored _ Hwf _ _ Hin) as [m [Hm [? ? ? ? ? ?]]]. by exists m.
Qed.

(** X12.  The update event of a stored handle is forwarded as is: when a
    handle the map holds reports new references, the collection fires
    exactly one update event and nothing else; the map and every other
    handle are unchanged. *)
Theorem handle_update_forwarded (this : Collection) (key : string) (instruction : nat)
    (refs : list Ref.t) :
  wf this ->
  (key, instruction) ∈ attachments this ->
  exec (model_update refs instruction) this
  = BuildCollection (attachments this)
      (alter (with_references refs) instruction (heap this))
      (log this ++ [UpdateFired]).
Proof.
  intros Hwf Hin.
  destruct (wf_stored _ Hwf _ _ Hin) as [m [Hm [_ _ HonUpdate _ _ Hdisposed]]].
  by rewrite model_update_eq, Hm, Hdisposed, HonUpdate.
Qed.

(** X13.  [references] is the concatenation, in the order of insertion, of
    the lists the live handles report; and adding a URI whose key is free
    appends the list of the new handle at the end, leaving the rest as it
    was. *)
Theorem references_in_insertion_order (this : Collection) :
  references this = concat (map modelReferences (values this))
  /\ (forall uri : URI.t,
        wf this ->
        store_has (URI.path uri) (attachments this) = false ->
        references (exec (add uri) this)
        = references this
          ++ modelReferences (added_model uri (fresh (dom (heap this))))).
Proof.
  split; [apply references_values|]. intros uri Hwf Hhas.
  rewrite !references_values, values_add by done.
  rewrite map_app, concat_app. simpl. by rewrite app_nil_r.
Qed.

(** X14.  On a collection that holds no attachment, [allSettled()] waits on
    nothing: its promise is fulfilled at once and stays so, whatever is
    added or happens afterwards. *)
Theorem allSettled_of_none (this now : Collection) :
  attachments this = [] ->
  allSettled this = [] /\ allSettled_result (allSettled this) now = Fulfilled.
Proof. intros Hnone. unfold allSettled. rewrite Hnone. by split. Qed.

(** X15.  Removing a URI and adding it again does not restore its place: the
    key moves to the end of the map, under a new handle; the handle that was
    removed stays disposed. *)
Theorem readd_moves_to_end (uri : URI.t) (this : Collection) (instruction : nat) :
  wf this ->
  (URI.path uri, instruction) ∈ attachments this ->
  let again := exec (add uri) (remove uri this) in
  let new_one := fresh (dom (heap this)) in
  attachments again
    = store_delete (URI.path uri) (attachments this) ++ [(URI.path uri, new_one)]
  /\ new_one <> instruction
  /\ heap again !! new_one = Some (added_model uri new_one)
  /\ exists m, heap again !! instruction = Some m /\ Model.disposed m = true.
Proof.
  intros Hwf Hin again new_one.
  destruct (wf_stored _ Hwf _ _ Hin) as [m [Hm _]].
  assert (Hnew : new_one <> instruction).
  { intros Heq. pose proof (fresh_address this) as Hfresh. fold new_one in Hfresh.
    congruence. }
  assert (Hdom : fresh (dom (heap (remove uri this))) = new_one).
  { rewrite (remove_stored _ _ _ Hwf Hin). simpl. by rewrite dom_alter_L. }
  unfold again, exec. rewrite add_absent by apply has_after_remove.
  rewrite Hdom, (remove_stored _ _ _ Hwf Hin). simpl.
  split; [done|]. split; [done|]. split; [apply lookup_insert_eq|].
  exists (mark_disposed m). split; [|done].
  rewrite lookup_insert_ne by done. by rewrite lookup_alter_eq, Hm.
Qed.

End ViewProperties.

(** ** The further theorems with hypotheses, applied *)

Lemma wf_one_attached : wf one_attached.
Proof. apply wf_add, wf_create. Qed.

Lemma wf_two_attached : wf two_attached.
Proof. apply wf_model_update, wf_add, wf_one_attached. Qed.

Lemma reachable_two_attached : reachable (parserOps := sampleParserOps) two_attached.
Proof.
  unfold reachable, two_attached, one_attached.
  eapply rtc_l; [apply step_add|]. eapply rtc_l; [apply step_add|].
  apply rtc_once, step_update.
Qed.

Lemma stored_in_one_attached : ("/w/a.prompt.md", 0) ∈ attachments one_attached.
Proof. apply list_elem_of_In. vm_compute. left. reflexivity. Qed.

Lemma add_appends_root_entry_witness :
  wf one_attached
  /\ store_has (URI.path b_prompt) (attachments one_attached) = false
  /\ chatAttachments (uriOps := sampleUriOps)
       (exec (add (parserOps := sampleParserOps) b_prompt) one_attached)
     = chatAttachments (uriOps := sampleUriOps) one_attached
       ++ [toChatVariable (uriOps := sampleUriOps) (Ref.Build b_prompt true) true].
Proof.
  assert (Hfree : store_has (URI.path b_prompt) (attachments one_attached) = false).
  { vm_compute. reflexivity. }
  split; [exact wf_one_attached|]. split; [exact Hfree|].
  exact (add_appends_root_entry (uriOps := sampleUriOps) (parserOps := sampleParserOps)
           b_prompt one_attached wf_one_attached Hfree).
Defined.

Lemma add_never_tears_down_witness :
  heap one_attached !! 0 = Some model_a
  /\ heap (exec (add (parserOps := sampleParserOps) b_prompt) one_attached) !! 0
     = Some model_a.
Proof.
  assert (Hmodel : heap one_attached !! 0 = Some model_a).
  { vm_compute. reflexivity. }
  split; [exact Hmodel|].
  exact (proj2 (proj2 (add_never_tears_down (parserOps := sampleParserOps)
                         b_prompt one_attached)) 0 model_a Hmodel).
Defined.

Lemma remove_notifies_once_witness :
  wf two_attached
  /\ store_has (URI.path b_prompt) (attachments two_attached) = true
  /\ exists instruction,
       store_get (URI.path b_prompt) (attachments two_attached) = Some instruction
       /\ remove b_prompt two_attached =
          BuildCollection (store_delete (URI.path b_prompt) (attachments two_attached))
            (alter mark_disposed instruction (heap two_attached))
            (log two_attached
               ++ [DeleteAndDispose (URI.path b_prompt); DisposeCalled instruction;
                   DeleteAndLeak (URI.path b_prompt); UpdateFired;
                   RemoveFired instruction]).
Proof.
  assert (Hheld : store_has (URI.path b_prompt) (attachments two_attached) = true).
  { vm_compute. reflexivity. }
  split; [exact wf_two_attached|]. split; [exact Hheld|].
  exact (remove_notifies_once b_prompt two_attached wf_two_attached Hheld).
Defined.

Lemma remove_idempotent_witness :
  URI.path a_prompt = URI.path a_untitled
  /\ remove a_untitled (remove a_prompt one_attached) = remove a_prompt one_attached.
Proof.
  split; [reflexivity|].
  exact (remove_idempotent a_prompt a_untitled one_attached eq_refl).
Defined.

Lemma remove_drops_one_block_witness :
  wf two_attached
  /\ attachments two_attached
     = [("/w/a.prompt.md", 0)] ++ (URI.path b_prompt, 1) :: []
  /\ attachments (remove b_prompt two_attached) = [("/w/a.prompt.md", 0)] ++ [].
Proof.
  assert (Hstore : attachments two_attached
                   = [("/w/a.prompt.md", 0)] ++ (URI.path b_prompt, 1) :: []).
  { vm_compute. reflexivity. }
  split; [exact wf_two_attached|]. split; [exact Hstore|].
  destruct (remove_drops_one_block (uriOps := sampleUriOps) (handleOps := sampleHandleOps)
              b_prompt two_attached [("/w/a.prompt.md", 0)] [] 1
              wf_two_attached Hstore) as (m & _ & _ & Hafter & _).
  exact Hafter.
Defined.

Lemma add_remove_round_trip_witness :
  wf one_attached
  /\ store_has (URI.path b_prompt) (attachments one_attached) = false
  /\ chatAttachments (uriOps := sampleUriOps)
       (remove b_prompt (exec (add (parserOps := sampleParserOps) b_prompt) one_attached))
     = chatAttachments (uriOps := sampleUriOps) one_attached.
Proof.
  assert (Hfree : store_has (URI.path b_prompt) (attachments one_attached) = false).
  { vm_compute. reflexivity. }
  split; [exact wf_one_attached|]. split; [exact Hfree|].
  destruct (add_remove_round_trip (uriOps := sampleUriOps) (parserOps := sampleParserOps)
              (handleOps := sampleHandleOps) b_prompt one_attached
              wf_one_attached Hfree) as (_ & Hview & _).
  exact Hview.
Defined.

Lemma reachable_handles_live_witness :
  reachable (parserOps := sampleParserOps) two_attached
  /\ NoDup (attachments two_attached).*1
  /\ NoDup (attachments two_attached).*2.
Proof.
  split; [exact reachable_two_attached|].
  destruct (reachable_handles_live (parserOps := sampleParserOps) two_attached
              reachable_two_attached) as (Hkeys & Haddresses & _).
  split; assumption.
Defined.

Lemma handle_update_forwarded_witness :
  wf one_attached
  /\ ("/w/a.prompt.md", 0) ∈ attachments one_attached
  /\ one_resolved
     = BuildCollection (attachments one_attached)
         (alter (with_references [Ref.Build c1_prompt true; Ref.Build c2_md false]) 0
            (heap one_attached))
         (log one_attached ++ [UpdateFired]).
Proof.
  split; [exact wf_one_attached|]. split; [exact stored_in_one_attached|].
  exact (handle_update_forwarded one_attached "/w/a.prompt.md" 0
           [Ref.Build c1_prompt true; Ref.Build c2_md false]
           wf_one_attached stored_in_one_attached).
Defined.

Lemma references_in_insertion_order_witness :
  wf one_attached
  /\ store_has (URI.path b_prompt) (attachments one_attached) = false
  /\ references (handleOps := sampleHandleOps)
       (exec (add (parserOps := sampleParserOps) b_prompt) one_attached)
     = references (handleOps := sampleHandleOps) one_attached
       ++ modelReferences (HandleOps := sampleHandleOps)
            (added_model (parserOps := sampleParserOps) b_prompt
               (fresh (dom (heap one_attached)))).
Proof.
  assert (Hfree : store_has (URI.path b_prompt) (attachments one_attached) = false).
  { vm_compute. reflexivity. }
  split; [exact wf_one_attached|]. split; [exact Hfree|].
  exact (proj2 (references_in_insertion_order (parserOps := sampleParserOps)
                  (handleOps := sampleHandleOps) one_attached)
           b_prompt wf_one_attached Hfree).
Defined.

Lemma allSettled_of_none_witness :
  attachments create = []
  /\ allSettled_result (allSettled create) one_attached = Fulfilled.
Proof.
  split; [reflexivity|].
  exact (proj2 (allSettled_of_none create one_attached eq_refl)).
Defined.

Lemma readd_moves_to_end_witness :
  wf one_attached
  /\ (URI.path a_prompt, 0) ∈ attachments one_attached
  /\ attachments (exec (add (parserOps := sampleParserOps) a_prompt)
                    (remove a_prompt one_attached))
     = store_delete (URI.path a_prompt) (attachments one_attached)
       ++ [(URI.path a_prompt, fresh (dom (heap one_attached)))].
Proof.
  split; [exact wf_one_attached|]. split; [exact stored_in_one_attached|].
  exact (proj1 (readd_moves_to_end (parserOps := sampleParserOps) a_prompt one_attached 0
                  wf_one_attached stored_in_one_attached)).
Defined.

(** The sample reading of [child.references], on the scenario with two
    attachments. *)
Example references_two_attached :
  references (handleOps := sampleHandleOps) two_attached = [a_prompt; x_md; b_prompt].
Proof. vm_compute. reflexivity. Qed.
